(** * Photo-2-Ascii: the image-to-ASCII conversion of [AsciiConverter]

    A shallow embedding of [convertToAscii] and [adjustColorBrightness]
    (src/unnamed/part_002, mirrored in part_001), and of the component code
    around them: [renderToCanvas] as the list of its canvas calls, the image
    loaders, [handleFileUpload], [updateSetting], the two effects,
    [copyToClipboard] and [downloadAsciiArt] as steps on the component state.

    JavaScript numbers are IEEE-754 doubles, modelled by Rocq's primitive
    [float], whose operations are the binary64 ones.  Integer-valued
    geometry (image sizes, strides, loop counters) is modelled in [Z]: in the
    code these are integers below 2^53, where the double operations are exact.
    The one shortcut is [Math.ceil(a / n)] for the strides, which is taken as
    the exact ceiling of the rational [a / n]; the rounded double quotient
    has the same ceiling while [a] stays below about 2^26.
    JavaScript strings are sequences of UTF-16 code units ([list Z]).

    Bounds on the double computations (brightness in [0, 1], character
    indices, brightness factors, clamped channels) are proved from the
    rounding specification of Rocq's floats ([FloatAxioms]): a double's value
    is compared as an integer, after scaling by [2^4096]. *)

From Stdlib Require Import ZArith List Bool Lia String Ascii.
From Stdlib Require Import PrimFloat SpecFloat FloatOps Uint63 FloatAxioms.
Import ListNotations.

Set Warnings "-inexact-float".
Open Scope string_scope.
Open Scope Z_scope.

(** ** JavaScript numbers *)

(** An integer as a double ([|z| < 2^53] in every use, where it is exact). *)
Definition fZ (z : Z) : float :=
  if z <? 0 then (- of_uint63 (Uint63.of_Z (- z)))%float
  else of_uint63 (Uint63.of_Z z).

(** The signed integer mantissa of a finite double. *)
Definition sf_mant (s : bool) (m : positive) : Z := if s then Z.neg m else Z.pos m.

(** [Math.floor]: finite doubles with a non-negative exponent are already
    integers; otherwise the floor of [M / 2^k] (below 2^53 in magnitude, so
    exact as a double).  Zeros, infinities and NaN are returned unchanged. *)
Definition js_floor (x : float) : float :=
  match Prim2SF x with
  | S754_finite s m e =>
      if 0 <=? e then x else fZ (Z.div (sf_mant s m) (2 ^ (- e)))
  | _ => x
  end.

(** [Math.round]: [floor (x + 1/2)] computed exactly; a negative argument
    that rounds to zero gives [-0]. *)
Definition js_round (x : float) : float :=
  match Prim2SF x with
  | S754_finite s m e =>
      if 0 <=? e then x
      else
        let k := - e in
        let z := Z.div (2 * sf_mant s m + 2 ^ k) (2 ^ (k + 1)) in
        if s && (z =? 0) then neg_zero else fZ z
  | _ => x
  end.

(** [Math.min] and [Math.max] on two arguments (NaN wins; [-0 < +0]). *)
Definition js_min (a b : float) : float :=
  if is_nan a || is_nan b then nan
  else if (a <? b)%float then a
  else if (b <? a)%float then b
  else if get_sign a then a else b.

Definition js_max (a b : float) : float :=
  if is_nan a || is_nan b then nan
  else if (a <? b)%float then b
  else if (b <? a)%float then a
  else if get_sign a then b else a.

(** ** JavaScript strings *)

Definition jsstr := list Z.

Definition ascii_units (s : string) : jsstr :=
  map (fun c => Z.of_nat (nat_of_ascii c)) (list_ascii_of_string s).

Definition newline : Z := 10.

(** The array index denoted by a number used as a property key: a
    non-negative integer ([-0] is the key ["0"]); anything else is not an
    index. *)
Definition js_index_of (x : float) : option nat :=
  match Prim2SF x with
  | S754_zero _ => Some O
  | S754_finite false m e =>
      if 0 <=? e then Some (Z.to_nat (Z.pos m * 2 ^ e))
      else if Z.pos m mod 2 ^ (- e) =? 0 then Some (Z.to_nat (Z.pos m / 2 ^ (- e)))
      else None
  | _ => None
  end.

(** [chars[i]]: a one-unit string, or [undefined] ([None]). *)
Definition js_char_at (s : jsstr) (i : float) : option Z :=
  match js_index_of i with
  | Some n => nth_error s n
  | None => None
  end.

(** [result += char] appends the unit, or the text ["undefined"]. *)
Definition char_text (c : option Z) : jsstr :=
  match c with
  | Some u => [u]
  | None => ascii_units "undefined"
  end.

(** ** Character ramps ([charSets]) *)

Record CharSet := { cs_name : string; cs_chars : jsstr }.

Definition standard : CharSet :=
  {| cs_name := "Standard"; cs_chars := ascii_units " .:-=+*#%@" |}.
Definition detailed : CharSet :=
  {| cs_name := "Detailed"; cs_chars := ascii_units " .,:;i1tfLCG08@" |}.
(** U+2591, U+2592, U+2593, U+2588 *)
Definition blocks : CharSet :=
  {| cs_name := "Block Characters"; cs_chars := [32; 9617; 9618; 9619; 9608] |}.
Definition minimal : CharSet :=
  {| cs_name := "Minimal"; cs_chars := [32; 46; 58; 9608] |}.
(** The double quote (34) is spliced in as a code unit. *)
Definition artistic : CharSet :=
  {| cs_name := "Artistic";
     cs_chars := app (ascii_units " .'`^") (34 :: ascii_units ",:;Il!i><~+_-?][}{1)(|\/tfjrxnuvczXYUJCLQ0OZmwqpdbkhao*#MW&8%B@$") |}.
Definition retro : CharSet :=
  {| cs_name := "Retro"; cs_chars := ascii_units " .:;+=xX$&@" |}.

(** [charSets[key]]; any other key gives [undefined], and reading [.chars]
    and [.length] from it throws a TypeError. *)
Definition charSets (key : string) : option CharSet :=
  if String.eqb key "standard" then Some standard
  else if String.eqb key "detailed" then Some detailed
  else if String.eqb key "blocks" then Some blocks
  else if String.eqb key "minimal" then Some minimal
  else if String.eqb key "artistic" then Some artistic
  else if String.eqb key "retro" then Some retro
  else None.

Definition builtin_keys : list string :=
  ["standard"; "detailed"; "blocks"; "minimal"; "artistic"; "retro"].

(** ** Settings, image, output *)

Record ConversionSettings := {
  resolution : float;
  charSet : string;
  inverted : bool;
  grayscale : bool
}.

(** The [HTMLImageElement] in [imageRef]: its natural and layout sizes, and
    the RGBA bytes [getImageData] returns once it is drawn on the hidden
    canvas at [imgWidth x imgHeight] ([None]: the canvas is tainted and
    [getImageData] throws). *)
Record HTMLImage := {
  naturalWidth : Z;
  naturalHeight : Z;
  width : Z;
  height : Z;
  pixels : option (list Z)
}.

Inductive Color :=
  | White
  | Rgb (r g b : float).   (** the string [rgb(r, g, b)] *)

Record ColoredChar := { char : option Z; color : Color }.

Inductive ConvError :=
  | CanvasOrImageUnavailable
  | InvalidDimensions
  | ContextUnavailable
  | PixelAccessDenied
  | UnknownCharSet.

Definition error_message (e : ConvError) : string :=
  match e with
  | CanvasOrImageUnavailable => "Canvas or image not available"
  | InvalidDimensions => "Invalid image dimensions"
  | ContextUnavailable => "Could not get canvas context"
  | PixelAccessDenied => "Failed to get image data. This might be a CORS issue."
  | UnknownCharSet => "Cannot read properties of undefined (reading 'length')"
  end.

(** ** Per-pixel mapping *)

Definition luma (r g b : float) : float :=
  ((r * 0.299 + g * 0.587 + b * 0.114) / 255)%float.

Definition color_brightness (r g b : float) : float :=
  PrimFloat.sqrt (0.299 * (r / 255) * (r / 255) + 0.587 * (g / 255) * (g / 255)
        + 0.114 * (b / 255) * (b / 255))%float.

Definition minBrightness : float := 40%float.

Definition adjust_channel (c factor : float) : float :=
  js_max (js_min (js_round (c * factor)%float) 255%float) minBrightness.

Definition adjustColorBrightness (r g b factor : float) : Color :=
  Rgb (adjust_channel r factor) (adjust_channel g factor) (adjust_channel b factor).

(** [data[i]]: a byte, or [undefined], which is NaN in arithmetic. *)
Definition read (data : list Z) (i : Z) : float :=
  match nth_error data (Z.to_nat i) with
  | Some v => fZ v
  | None => nan
  end.

Definition pixel_pos (imgWidth x y : Z) : Z := (y * imgWidth + x) * 4.

Definition brightness_of (s : ConversionSettings) (r g b : float) : float :=
  let b0 := if grayscale s then luma r g b else color_brightness r g b in
  if inverted s then (1 - b0)%float else b0.

Definition char_index (chars : jsstr) (brightness : float) : float :=
  js_floor (brightness * fZ (Z.of_nat (List.length chars) - 1))%float.

Definition brightness_factor (chars : jsstr) (charIndex : float) : float :=
  (charIndex / fZ (Z.of_nat (List.length chars) - 1) * 1.5 + 0.5)%float.

Definition cell_of_rgb (s : ConversionSettings) (chars : jsstr) (r g b : float)
  : ColoredChar :=
  let charIndex := char_index chars (brightness_of s r g b) in
  let ch := js_char_at chars charIndex in
  if negb (grayscale s) then
    {| char := ch;
       color := adjustColorBrightness r g b (brightness_factor chars charIndex) |}
  else {| char := ch; color := White |}.

Definition cell_at (s : ConversionSettings) (chars : jsstr) (data : list Z)
  (imgWidth x y : Z) : ColoredChar :=
  let pos := pixel_pos imgWidth x y in
  cell_of_rgb s chars (read data pos) (read data (pos + 1)) (read data (pos + 2)).

(** ** Strides and the sampling walk *)

(** A loop step: an integer, or an infinite or NaN double. *)
Inductive Step := StepInt (k : Z) | StepPosInf | StepNegInf | StepNaN.

(** [Math.ceil(a / n)] for an integer [a > 0] and a divisor [n] produced by
    [Math.floor]: division by [+0] and [-0] gives [+Infinity] and
    [-Infinity], by an infinity [+-0], by NaN NaN; otherwise the exact
    ceiling of the quotient. *)
Definition ceil_div_step (a : Z) (n : float) : Step :=
  match Prim2SF n with
  | S754_nan => StepNaN
  | S754_zero false => StepPosInf
  | S754_zero true => StepNegInf
  | S754_infinity _ => StepInt 0
  | S754_finite s m e =>
      if 0 <=? e then StepInt (- ((- a) / (sf_mant s m * 2 ^ e)))
      else StepInt (- ((- a * 2 ^ (- e)) / sf_mant s m))
  end.

(** [for (v = 0; v < lim; v += k)] with [k >= 1]: at most [lim] iterations. *)
Fixpoint walk_fuel (fuel : nat) (v k lim : Z) : list Z :=
  match fuel with
  | O => []
  | S f => if v <? lim then v :: walk_fuel f (v + k) k lim else []
  end.

(** The visited coordinates, or [None] when the loop never ends (a step
    that is [<= 0] or [-Infinity] keeps [v < lim] forever). *)
Definition walk (lim : Z) (st : Step) : option (list Z) :=
  match st with
  | StepInt k =>
      if 0 <? k then Some (walk_fuel (Z.to_nat lim) 0 k lim)
      else if 0 <? lim then None else Some []
  | StepPosInf | StepNaN => Some (if 0 <? lim then [0] else [])
  | StepNegInf => if 0 <? lim then None else Some []
  end.

(** ** [convertToAscii] *)

Inductive Outcome :=
  | Done (text : jsstr) (grid : list (list ColoredChar))
  | Failed (e : ConvError)
  | Hangs.

(** [a || b] on a number: [b] when [a] is [0]. *)
Definition js_or (a b : Z) : Z := if a =? 0 then b else a.

Definition row_text (row : list ColoredChar) : jsstr :=
  (List.concat (map (fun c => char_text (char c)) row) ++ [newline])%list.

(** The hidden canvas is rendered unconditionally, so [canvasRef.current] is
    set; [ctx_ok] is whether [getContext("2d")] returned a context. *)
Definition convertToAscii (ctx_ok : bool) (imageRef : option HTMLImage)
  (settings : ConversionSettings) : Outcome :=
  match imageRef with
  | None => Failed CanvasOrImageUnavailable
  | Some img =>
    let imgWidth := js_or (naturalWidth img) (width img) in
    let imgHeight := js_or (naturalHeight img) (height img) in
    if (imgWidth =? 0) || (imgHeight =? 0) then Failed InvalidDimensions
    else if negb ctx_ok then Failed ContextUnavailable
    else
    let w := js_floor (fZ imgWidth * resolution settings)%float in
    let h := js_floor (fZ imgHeight * resolution settings)%float in
    match pixels img with
    | None => Failed PixelAccessDenied
    | Some data =>
      match charSets (charSet settings) with
      | None => Failed UnknownCharSet
      | Some cs =>
        let chars := cs_chars cs in
        let widthStep := ceil_div_step imgWidth w in
        (* imgHeight / height / 0.5 = 2 * imgHeight / height *)
        let heightStep := ceil_div_step (2 * imgHeight) h in
        match walk imgHeight heightStep with
        | None => Hangs
        | Some [] => Done [] []
        | Some ys =>
          match walk imgWidth widthStep with
          | None => Hangs
          | Some xs =>
            let grid :=
              map (fun y => map (fun x => cell_at settings chars data imgWidth x y) xs) ys in
            Done (List.concat (map row_text grid)) grid
          end
        end
      end
    end
  end.

(** The component state written by [convertToAscii]: [setAsciiArt],
    [setColoredAsciiArt], [setError]. *)
Record UiState := {
  asciiArt : jsstr;
  coloredAsciiArt : list (list ColoredChar);
  error : option string
}.

Definition apply_conversion (st : UiState) (o : Outcome) : UiState :=
  match o with
  | Done t g => {| asciiArt := t; coloredAsciiArt := g; error := None |}
  | Failed e => {| asciiArt := []; coloredAsciiArt := []; error := Some (error_message e) |}
  | Hangs => st
  end.

(** ** Concrete inputs *)

Definition white_px : list Z := [255; 255; 255; 255].
Definition black_px : list Z := [0; 0; 0; 255].

Definition img_2x2 : HTMLImage :=
  {| naturalWidth := 2; naturalHeight := 2; width := 2; height := 2;
     pixels := Some (white_px ++ black_px ++ white_px ++ black_px)%list |}.

Definition settings_c1 : ConversionSettings :=
  {| resolution := 1%float; charSet := "standard"; inverted := false; grayscale := true |}.

Definition img_1x1 : HTMLImage :=
  {| naturalWidth := 1; naturalHeight := 1; width := 1; height := 1;
     pixels := Some white_px |}.

Definition img_0x2 : HTMLImage :=
  {| naturalWidth := 0; naturalHeight := 2; width := 0; height := 2;
     pixels := Some [] |}.

Definition img_2x2_alpha : HTMLImage :=
  {| naturalWidth := 2; naturalHeight := 2; width := 2; height := 2;
     pixels := Some [255; 255; 255; 0; 0; 0; 0; 7; 255; 255; 255; 1; 0; 0; 0; 255] |}.

Definition settings_half : ConversionSettings :=
  {| resolution := 0.5%float; charSet := "standard"; inverted := false; grayscale := false |}.

Definition settings_color : ConversionSettings :=
  {| resolution := 1%float; charSet := "standard"; inverted := false; grayscale := false |}.

Definition ui0 : UiState := {| asciiArt := [65]; coloredAsciiArt := []; error := None |}.

(** ** Bounds on doubles, and checks on the ramps *)

(** Values of doubles are compared as integers: [sv m e] is [m * 2^e]
    scaled by [2^scale], which makes every double's value an integer. *)
Definition scale : Z := 4096.

Definition sv (m e : Z) : Z := m * 2 ^ (e + scale).

(** Whether a rounding location carries a discarded remainder. *)
Definition inexact (l : location) : Z :=
  match l with loc_Exact => 0 | loc_Inexact _ => 1 end.

(** The rounded result is non-negative and at most [mF * 2^eF]. *)
Definition le_bound (x : spec_float) (mF eF : Z) : Prop :=
  match x with
  | S754_zero _ => True
  | S754_finite false m e => sv (Zpos m) e <= sv mF eF
  | _ => False
  end.

(** A normalised binary64 mantissa and exponent. *)
Definition canon (m e : Z) : Prop :=
  -1074 <= e <= 971 /\ 0 < m < 2 ^ 53 /\ (e = -1074 \/ 2 ^ 52 <= m).

(** [+0], [-0] or a positive finite double. *)
Definition nonneg (x : spec_float) : Prop :=
  match x with
  | S754_zero _ => True
  | S754_finite false _ _ => True
  | _ => False
  end.

(** The scaled value of a finite double (0 for the others). *)
Definition fval (x : spec_float) : Z :=
  match x with
  | S754_finite s m e => cond_Zopp s (sv (Zpos m) e)
  | _ => 0
  end.

(** A non-negative finite double whose scaled value is at most [b]. *)
Definition le_val (x : spec_float) (b : Z) : Prop := nonneg x /\ fval x <= b.

Definition fle (x : float) (b : Z) : Prop := le_val (Prim2SF x) b.

(** [n] is below the midpoint between the double [F] and its successor,
    measured at scale [k]; at the midpoint itself [F] must be even *)
Definition bh (k n : Z) (F : float) : bool :=
  match Prim2SF F with
  | S754_finite false mF eF =>
      (n <? k * sv (2 * Zpos mF + 1) eF)
      || ((n =? k * sv (2 * Zpos mF + 1) eF) && Z.even (Zpos mF))
  | _ => false
  end.

(** The scaled value of a double. *)
Definition fv (F : float) : Z := fval (Prim2SF F).

(** A positive finite double. *)
Definition pos_finite (y : float) : bool :=
  match Prim2SF y with S754_finite false _ _ => true | _ => false end.

(** Not NaN, with sign [sx]. *)
Definition shape (sx : bool) (x : spec_float) : Prop :=
  match x with
  | S754_nan => False
  | S754_zero s | S754_infinity s | S754_finite s _ _ => s = sx
  end.

(** A byte of the RGBA buffer. *)
Definition byte (v : Z) : Prop := 0 <= v <= 255.

(** [0, 1, ..., n - 1]. *)
Definition Zrange (n : nat) : list Z := map Z.of_nat (seq 0 n).

(** The three products of the luma sum, and the terms of the colour
    brightness, for a byte [v]. *)
Definition gA (v : Z) : float := (fZ v * 0.299)%float.

Definition gB (v : Z) : float := (fZ v * 0.587)%float.

Definition gC (v : Z) : float := (fZ v * 0.114)%float.

(** A term is non-negative and largest at 255. *)
Definition term_ok (t : Z -> float) (v : Z) : bool :=
  (0 <=? t v)%float && (t v <=? t 255%Z)%float.

Definition cA (v : Z) : float := (0.299 * (fZ v / 255) * (fZ v / 255))%float.

Definition cB (v : Z) : float := (0.587 * (fZ v / 255) * (fZ v / 255))%float.

Definition cC (v : Z) : float := (0.114 * (fZ v / 255) * (fZ v / 255))%float.

(** [fZ n] is the double with value [n]. *)
Definition fZ_exact (n : Z) : bool :=
  match Prim2SF (fZ n) with
  | S754_finite false m e => sv (Zpos m) e =? sv n 0
  | _ => false
  end.

(** [fZ n] denotes the array index [n]. *)
Definition index_exact (n : Z) : bool :=
  match js_index_of (fZ n) with
  | Some k => Nat.eqb k (Z.to_nat n)
  | None => false
  end.

(** The largest index of a ramp, [chars.length - 1]. *)
Definition ramp_K (chars : jsstr) : Z := Z.of_nat (List.length chars) - 1.

(** A brightness factor in [0.5, 2]. *)
Definition factor_ok (f : float) : bool :=
  (0 <=? f)%float && (0.5 <=? f)%float && (f <=? 2)%float.

(** Facts a ramp is checked for: its largest index is a small positive
    integer, exactly representable, and multiplying a brightness in [0, 1]
    by it stays at most that index. *)
Definition ramp_ok (chars : jsstr) : bool :=
  let K := ramp_K chars in
  (0 <? K) && (K <=? 100) && pos_finite (fZ K)
  && (0 <=? fZ K)%float && (fZ K <=? fZ K)%float
  && bh (2 ^ scale) (2 * (2 ^ scale * fv (fZ K))) (fZ K)
  && (fv (fZ K) =? sv K 0).

(** Every index of the ramp (and [-0]) gives a brightness factor in
    [0.5, 2], and no character of the ramp is a newline. *)
Definition ramp_extra_ok (chars : jsstr) : bool :=
  let K := ramp_K chars in
  forallb (fun n => factor_ok (brightness_factor chars (fZ n))) (Zrange (S (Z.to_nat K)))
  && factor_ok (brightness_factor chars (-0)%float)
  && forallb (fun u => negb (u =? newline)) chars.

(** The pixel buffer [getImageData] returns for a [W x H] canvas: [4 W H]
    bytes. *)
Definition wf_pixels (W H : Z) (data : list Z) : Prop :=
  Z.of_nat (List.length data) = 4 * W * H /\ Forall byte data.

(** [String.prototype.split] with the separator ["\n"]: one more piece than
    there are newlines. *)
Fixpoint split_nl (s : jsstr) : list jsstr :=
  match s with
  | [] => [[]]
  | c :: t =>
      if c =? newline then [] :: split_nl t
      else match split_nl t with
           | l :: ls => (c :: l) :: ls
           | [] => [[c]]
           end
  end.

(** The characters of a row, without its newline. *)
Definition row_units (row : list ColoredChar) : jsstr :=
  List.concat (map (fun c => char_text (char c)) row).

(** A loop step that ends the loop: [+Infinity] or an integer [>= 1]. *)
Definition good_step (st : Step) : Prop :=
  st = StepPosInf \/ exists k, st = StepInt k /\ 1 <= k.

(** ** Colour channels of the ramps *)

(** [c] is the double of an integer in [40, 255]. *)
Definition int_channel (c : float) : bool :=
  match js_index_of c with
  | Some k => (40 <=? Z.of_nat k) && (Z.of_nat k <=? 255) && Leibniz.eqb c (fZ (Z.of_nat k))
  | None => false
  end.

Definition channels_ok (f : float) : bool :=
  forallb (fun v => int_channel (adjust_channel (fZ v) f)) (Zrange 256).

Definition ramp_channels_ok (chars : jsstr) : bool :=
  forallb (fun n => channels_ok (brightness_factor chars (fZ n))) (Zrange (S (Z.to_nat (ramp_K chars))))
  && channels_ok (brightness_factor chars (-0)%float).

(** ** [renderToCanvas] *)

(** [Math.ceil], as [-Math.floor(-x)]. *)
Definition js_ceil (x : float) : float := (- js_floor (- x))%float.

(** [Math.max(...xs)]: [-Infinity] for no argument. *)
Definition js_max_list (xs : list float) : float := fold_left js_max xs neg_infinity.

(** [Array.prototype.forEach] with the index. *)
Fixpoint mapi_from {A B} (f : Z -> A -> B) (i : Z) (l : list A) : list B :=
  match l with
  | [] => []
  | a :: l' => f i a :: mapi_from f (i + 1) l'
  end.

Definition mapi {A B} (f : Z -> A -> B) (l : list A) : list B := mapi_from f 0 l.

(** The calls [renderToCanvas] makes on the output canvas and its context. *)
Inductive DrawOp :=
  | ClearRect
  | SetFont (size : float)          (** [ctx.font = `${size}px monospace`; ctx.textBaseline = "top"] *)
  | SetCanvasSize (w h : float)     (** [canvas.width = w; canvas.height = h] *)
  | SetFillStyle (c : Color)
  | Save
  | Scale (z : float)
  | Restore
  | FillText (t : jsstr) (x y : float).

(** [canvas_ok]: [outputCanvasRef.current] is set; [ctx_ok]: [getContext("2d")]
    returned a context.  [st] holds [asciiArt] and [coloredAsciiArt]. *)

Definition renderToCanvas (canvas_ok ctx_ok : bool) (st : UiState) (gray : bool)
  (asciiFontSize canvasZoom : float) : list DrawOp :=
  match coloredAsciiArt st with
  | [] => []
  | row0 :: _ =>
    if negb canvas_ok || match asciiArt st with [] => true | _ => false end then []
    else if negb ctx_ok then []
    else
    let fontSize := asciiFontSize in
    let lineHeight := fontSize in
    let charWidth := (fontSize * 0.6)%float in
    let size :=
      if gray then
        let lines := split_nl (asciiArt st) in
        let maxLineLength := js_max_list (map (fun line => fZ (Z.of_nat (List.length line))) lines) in
        let baseWidth := (maxLineLength * charWidth)%float in
        let baseHeight := (fZ (Z.of_nat (List.length lines)) * lineHeight)%float in
        SetCanvasSize (js_ceil (baseWidth * canvasZoom)) (js_ceil (baseHeight * canvasZoom))
      else
        let baseWidth := (fZ (Z.of_nat (List.length row0)) * charWidth)%float in
        let baseHeight := (fZ (Z.of_nat (List.length (coloredAsciiArt st))) * lineHeight)%float in
        SetCanvasSize (js_ceil (baseWidth * canvasZoom)) (js_ceil (baseHeight * canvasZoom)) in
    [ClearRect; SetFont fontSize; size; SetFont fontSize] ++
    (if gray then
       [SetFillStyle White; Save; Scale canvasZoom] ++
       mapi (fun lineIndex line => FillText line 0 (fZ lineIndex * lineHeight)%float)
         (split_nl (asciiArt st)) ++ [Restore]
     else
       [Save; Scale canvasZoom] ++
       List.concat (mapi (fun rowIndex row =>
         List.concat (mapi (fun colIndex col =>
           [SetFillStyle (color col);
            FillText (char_text (char col)) (fZ colIndex * charWidth)%float
              (fZ rowIndex * lineHeight)%float]) row))
         (coloredAsciiArt st)) ++ [Restore])%list
  end.

(** The [fillText] calls of a drawing, in order. *)
Definition fills (ops : list DrawOp) : list (jsstr * float * float) :=
  flat_map (fun op => match op with FillText t x y => [(t, x, y)] | _ => [] end) ops.

(** Lines joined with newlines ([Array.prototype.join("\n")]). *)
Fixpoint join_nl (ls : list jsstr) : jsstr :=
  match ls with
  | [] => []
  | [l] => l
  | l :: ls' => (l ++ newline :: join_nl ls')%list
  end.

(** ** Loading, uploads, settings, copy and download *)

(** [String.prototype.startsWith]. *)
Fixpoint js_startsWith (s prefix : jsstr) {struct prefix} : bool :=
  match prefix, s with
  | [], _ => true
  | p :: ps, c :: cs => (p =? c) && js_startsWith cs ps
  | _ :: _, [] => false
  end.

(** The entries of the [charSets] object, in insertion order
    ([Object.entries(charSets)]). *)

Definition charSets_entries : list (string * CharSet) :=
  [("standard", standard); ("detailed", detailed); ("blocks", blocks);
   ("minimal", minimal); ("artistic", artistic); ("retro", retro)].

(** The items of the character-set [Select]: value [key], label [name]. *)
Definition select_items : list (string * string) :=
  map (fun '(key, cs) => (key, cs_name cs)) charSets_entries.

(** [updateSetting(key, value)]: [{ ...prev, [key]: value }]. *)
Inductive SettingUpdate :=
  | SetResolution (v : float)
  | SetCharSet (v : string)
  | SetInverted (v : bool)
  | SetGrayscale (v : bool).

Definition updateSetting (u : SettingUpdate) (prev : ConversionSettings) : ConversionSettings :=
  match u with
  | SetResolution v =>
      {| resolution := v; charSet := charSet prev; inverted := inverted prev; grayscale := grayscale prev |}
  | SetCharSet v =>
      {| resolution := resolution prev; charSet := v; inverted := inverted prev; grayscale := grayscale prev |}
  | SetInverted v =>
      {| resolution := resolution prev; charSet := charSet prev; inverted := v; grayscale := grayscale prev |}
  | SetGrayscale v =>
      {| resolution := resolution prev; charSet := charSet prev; inverted := inverted prev; grayscale := v |}
  end.

(** The state of [AsciiConverter] that loading and conversion touch:
    [asciiArt], [coloredAsciiArt] and [error] in [ui]. *)

Record Component := {
  settings : ConversionSettings;
  imageLoaded : bool;
  loading : bool;
  ui : UiState;
  imageRef : option HTMLImage
}.

Definition initial_settings : ConversionSettings :=
  {| resolution := 0.15%float; charSet := "standard"; inverted := false; grayscale := true |}.

Definition initial_component : Component :=
  {| settings := initial_settings; imageLoaded := false; loading := false;
     ui := {| asciiArt := []; coloredAsciiArt := []; error := None |};
     imageRef := None |}.

Definition setError (e : option string) (st : Component) : Component :=
  {| settings := settings st; imageLoaded := imageLoaded st; loading := loading st;
     ui := {| asciiArt := asciiArt (ui st); coloredAsciiArt := coloredAsciiArt (ui st); error := e |};
     imageRef := imageRef st |}.

Definition setLoading (b : bool) (st : Component) : Component :=
  {| settings := settings st; imageLoaded := imageLoaded st; loading := b; ui := ui st;
     imageRef := imageRef st |}.

Definition setImageLoaded (b : bool) (st : Component) : Component :=
  {| settings := settings st; imageLoaded := b; loading := loading st; ui := ui st;
     imageRef := imageRef st |}.

Definition setImageRef (img : HTMLImage) (st : Component) : Component :=
  {| settings := settings st; imageLoaded := imageLoaded st; loading := loading st; ui := ui st;
     imageRef := Some img |}.

Definition setSettings (f : ConversionSettings -> ConversionSettings) (st : Component) : Component :=
  {| settings := f (settings st); imageLoaded := imageLoaded st; loading := loading st;
     ui := ui st; imageRef := imageRef st |}.

(** The synchronous part of [loadImage] and [loadDefaultImage]. *)
Definition load_start (st : Component) : Component :=
  setImageLoaded false (setError None (setLoading true st)).

(** [img.onload] of both loaders. *)
Definition image_onload (img : HTMLImage) (st : Component) : Component :=
  if (naturalWidth img =? 0) || (naturalHeight img =? 0) then
    setLoading false (setError (Some "Invalid image dimensions") st)
  else setLoading false (setImageLoaded true (setImageRef img st)).

(** [img.onerror]; [default]: the image of [loadDefaultImage]. *)
Definition image_onerror (default : bool) (st : Component) : Component :=
  setLoading false
    (setError (Some (if default then "Failed to load default image" else "Failed to load image")) st).

(** [handleFileUpload]: a file whose MIME type does not start with
    ["image/"] is refused; otherwise a [FileReader] starts, and nothing
    changes until it finishes. *)

Definition handleFileUpload (type : jsstr) (st : Component) : Component :=
  if negb (js_startsWith type (ascii_units "image/")) then
    setError (Some "Please upload an image file") st
  else st.

(** [reader.onload]: [e.target.result] is the data URL, or [null]. *)
Definition reader_onload (result : option jsstr) (st : Component) : Component :=
  match result with
  | Some (_ :: _) => load_start st
  | _ => st
  end.

Definition reader_onerror (st : Component) : Component :=
  setError (Some "Failed to read file") st.

(** The conversion effect: it runs [convertToAscii] when [imageLoaded &&
    imageRef.current]. *)

Definition convert_effect (ctx_ok : bool) (st : Component) : Component :=
  if imageLoaded st && match imageRef st with Some _ => true | None => false end then
    {| settings := settings st; imageLoaded := imageLoaded st; loading := loading st;
       ui := apply_conversion (ui st) (convertToAscii ctx_ok (imageRef st) (settings st));
       imageRef := imageRef st |}
  else st.

(** What can happen to the component: a loader starts, an image loads or
    fails, a file is chosen or read, a control changes a setting, the
    conversion effect runs. *)

Inductive Event :=
  | LoadStart
  | ImageLoad (img : HTMLImage)
  | ImageError (default : bool)
  | FileUpload (type : jsstr)
  | ReaderLoad (result : option jsstr)
  | ReaderError
  | Update (u : SettingUpdate)
  | ConvertEffect (ctx_ok : bool).

Definition step (st : Component) (ev : Event) : Component :=
  match ev with
  | LoadStart => load_start st
  | ImageLoad img => image_onload img st
  | ImageError d => image_onerror d st
  | FileUpload ty => handleFileUpload ty st
  | ReaderLoad r => reader_onload r st
  | ReaderError => reader_onerror st
  | Update u => setSettings (updateSetting u) st
  | ConvertEffect c => convert_effect c st
  end.

Definition run (st : Component) (evs : list Event) : Component := fold_left step evs st.

(** The updates the controls can make: the [Select] offers the keys of
    [select_items]. *)

Definition ui_update (ev : Event) : bool :=
  match ev with
  | Update (SetCharSet key) => existsb (String.eqb key) (map fst select_items)
  | _ => true
  end.

Definition loaded_inv (st : Component) : Prop :=
  imageLoaded st = true ->
  exists img, imageRef st = Some img /\ naturalWidth img <> 0 /\ naturalHeight img <> 0.

Definition charset_inv (st : Component) : Prop := charSets (charSet (settings st)) <> None.

(** [copyToClipboard]: the text written to the clipboard (the [copied] flag
    only drives the button label). *)
Definition copyToClipboard (st : Component) : Component * option jsstr :=
  match asciiArt (ui st) with
  | [] => (setError (Some "No ASCII art to copy") st, None)
  | art => (st, Some art)
  end.

(** [downloadAsciiArt]: the contents of the downloaded [ascii-art.txt]. *)
Definition downloadAsciiArt (st : Component) : Component * option jsstr :=
  match asciiArt (ui st) with
  | [] => (setError (Some "No ASCII art to download") st, None)
  | art => (st, Some art)
  end.

(** The condition of the rendering effect: [imageLoaded && !loading && !error]. *)
Definition render_effect_runs (st : Component) : bool :=
  imageLoaded st && negb (loading st) && match error (ui st) with None => true | Some _ => false end.

(** ** More concrete inputs *)

Definition img_2x2_loaded : Component :=
  {| settings := settings_color; imageLoaded := true; loading := false;
     ui := ui0; imageRef := Some img_2x2 |}.

Definition ui_art : UiState :=
  {| asciiArt := [64; 32; 10; 46]; coloredAsciiArt := [[]]; error := None |}.

Definition settings_tiny : ConversionSettings :=
  {| resolution := 0.1%float; charSet := "standard"; inverted := false; grayscale := true |}.

(** * Lemmas *)

Lemma digits2_bounds p :
  2 ^ (Zpos (digits2_pos p) - 1) <= Zpos p < 2 ^ Zpos (digits2_pos p).
Proof.
  induction p as [p IH|p IH|]; [| |simpl; lia];
    simpl digits2_pos; rewrite Pos2Z.inj_succ;
    set (d := Zpos (digits2_pos p)) in *;
    assert (Hd : 1 <= d) by (unfold d; pose proof (Pos2Z.is_pos (digits2_pos p)); lia);
    replace (Z.succ d - 1) with d by lia;
    rewrite Z.pow_succ_r by lia;
    [rewrite (Pos2Z.inj_xI p) | rewrite (Pos2Z.inj_xO p)];
    assert (E : 2 ^ d = 2 * 2 ^ (d - 1))
      by (rewrite <- Z.pow_succ_r by lia; f_equal; lia);
    lia.
Qed.

Lemma Zdigits2_bounds m : 0 <= m ->
  2 ^ (Zdigits2 m - 1) <= m < 2 ^ Zdigits2 m.
Proof. destruct m; simpl; try lia. intros _. apply digits2_bounds. Qed.

Lemma Zdigits2_nonneg m : 0 <= Zdigits2 m.
Proof. destruct m; simpl; lia. Qed.

Lemma Zdigits2_pos m : 0 < m -> 1 <= Zdigits2 m.
Proof. destruct m; simpl; try lia. Qed.

(** the digit count is determined by the bounds *)
Lemma Zdigits2_unique m d : 1 <= d -> 2 ^ (d - 1) <= m < 2 ^ d -> Zdigits2 m = d.
Proof.
  intros Hd [H1 H2].
  assert (Hm : 0 < m) by (pose proof (Z.pow_pos_nonneg 2 (d-1)); lia).
  pose proof (Zdigits2_bounds m ltac:(lia)) as [H3 H4]. pose proof (Zdigits2_pos m Hm).
  destruct (Z.lt_trichotomy (Zdigits2 m) d) as [Hlt|[Heq|Hgt]]; auto.
  - assert (2 ^ Zdigits2 m <= 2 ^ (d - 1)) by (apply Z.pow_le_mono_r; lia). lia.
  - assert (2 ^ d <= 2 ^ (Zdigits2 m - 1)) by (apply Z.pow_le_mono_r; lia). lia.
Qed.

Lemma iter_pos_nat {A} (f : A -> A) p x :
  iter_pos f p x = Nat.iter (Pos.to_nat p) f x.
Proof.
  revert x; induction p as [p IH|p IH|]; intros x.
  - change (iter_pos f p~1 x) with (iter_pos f p (iter_pos f p (f x))).
    rewrite Pos2Nat.inj_xI, !IH, <- Nat.iter_add, Nat.iter_succ_r. f_equal. lia.
  - change (iter_pos f p~0 x) with (iter_pos f p (iter_pos f p x)).
    rewrite Pos2Nat.inj_xO, !IH, <- Nat.iter_add. f_equal. lia.
  - reflexivity.
Qed.

Lemma shr_1_spec m r s : 0 <= m ->
  shr_1 {| shr_m := m; shr_r := r; shr_s := s |}
  = {| shr_m := m / 2; shr_r := m mod 2 =? 1; shr_s := r || s |}.
Proof.
  intros Hm. destruct m as [|p|p]; try lia.
  - reflexivity.
  - destruct p as [p|p|]; simpl shr_1.
    + rewrite Pos2Z.inj_xI.
      replace ((2 * Zpos p + 1) / 2) with (Zpos p) by (rewrite Z.add_comm, Z.mul_comm, Z.div_add by lia; reflexivity).
      replace ((2 * Zpos p + 1) mod 2) with 1 by (rewrite Z.add_comm, Z.mul_comm, Z.mod_add by lia; reflexivity).
      reflexivity.
    + rewrite Pos2Z.inj_xO.
      replace (2 * Zpos p / 2) with (Zpos p) by (rewrite Z.mul_comm, Z.div_mul by lia; reflexivity).
      replace (2 * Zpos p mod 2) with 0 by (rewrite Z.mul_comm, Z.mod_mul by lia; reflexivity).
      reflexivity.
    + reflexivity.
Qed.

Lemma Zmod_mul_r a b c : 0 < b -> 0 < c ->
  a mod (b * c) = a mod b + b * ((a / b) mod c).
Proof.
  intros Hb Hc.
  rewrite (Z.mod_eq a (b * c)) by lia. rewrite <- Z.div_div by lia.
  rewrite (Z.mod_eq (a / b) c) by lia.
  rewrite (Z.div_mod a b) at 1 by lia. rewrite Z.mod_eq by lia. ring.
Qed.

Lemma shr_1_iter n m r s : 0 <= m ->
  Nat.iter (S n) shr_1 {| shr_m := m; shr_r := r; shr_s := s |}
  = {| shr_m := m / 2 ^ Z.of_nat (S n);
       shr_r := 2 ^ Z.of_nat n <=? m mod 2 ^ Z.of_nat (S n);
       shr_s := negb (m mod 2 ^ Z.of_nat n =? 0) || r || s |}.
Proof.
  intros Hm. induction n as [|n IH].
  - change (Nat.iter 1 shr_1 {| shr_m := m; shr_r := r; shr_s := s |})
      with (shr_1 {| shr_m := m; shr_r := r; shr_s := s |}).
    rewrite shr_1_spec by lia.
    change (2 ^ Z.of_nat 1) with 2. change (2 ^ Z.of_nat 0) with 1.
    rewrite Z.mod_1_r. simpl.
    f_equal. pose proof (Z.mod_pos_bound m 2).
    destruct (Z.eqb_spec (m mod 2) 1), (Z.leb_spec 1 (m mod 2)); auto; lia.
  - change (Nat.iter (S (S n)) shr_1 {| shr_m := m; shr_r := r; shr_s := s |})
      with (shr_1 (Nat.iter (S n) shr_1 {| shr_m := m; shr_r := r; shr_s := s |})).
    rewrite IH. rewrite shr_1_spec by (apply Z.div_pos; [lia | apply Z.pow_pos_nonneg; lia]).
    set (a := Z.of_nat n).
    replace (Z.of_nat (S (S n))) with (a + 1 + 1) by lia.
    replace (Z.of_nat (S n)) with (a + 1) by lia.
    assert (Hp : 0 < 2 ^ a) by (apply Z.pow_pos_nonneg; lia).
    rewrite (Z.pow_add_r 2 (a + 1) 1) by lia. rewrite (Z.pow_add_r 2 a 1) by lia.
    rewrite Z.pow_1_r.
    rewrite Z.div_div by lia.
    rewrite (Zmod_mul_r m (2 ^ a * 2) 2) by lia.
    rewrite (Zmod_mul_r m (2 ^ a) 2) by lia.
    f_equal.
    + rewrite <- (Zmod_mul_r m (2 ^ a) 2) by lia.
      pose proof (Z.mod_pos_bound m (2 ^ a * 2)).
      assert (Ht : m / (2 ^ a * 2) mod 2 = 0 \/ m / (2 ^ a * 2) mod 2 = 1)
        by (pose proof (Z.mod_pos_bound (m / (2 ^ a * 2)) 2); lia).
      destruct Ht as [Ht|Ht]; rewrite Ht; simpl Z.eqb;
        symmetry; [apply Z.leb_gt | apply Z.leb_le]; lia.
    + pose proof (Z.mod_pos_bound m (2 ^ a)).
      assert (Ht : m / 2 ^ a mod 2 = 0 \/ m / 2 ^ a mod 2 = 1)
        by (pose proof (Z.mod_pos_bound (m / 2 ^ a) 2); lia).
      destruct Ht as [Ht|Ht]; rewrite Ht.
      * replace (2 ^ a * 0) with 0 by ring. rewrite Z.add_0_r.
        replace (2 ^ a <=? m mod 2 ^ a) with false by (symmetry; apply Z.leb_gt; lia).
        reflexivity.
      * replace (2 ^ a <=? m mod 2 ^ a + 2 ^ a * 1) with true by (symmetry; apply Z.leb_le; lia).
        replace (m mod 2 ^ a + 2 ^ a * 1 =? 0) with false by (symmetry; apply Z.eqb_neq; lia).
        destruct (m mod 2 ^ a =? 0), r, s; reflexivity.
Qed.

Lemma fexp_eq e : fexp prec emax e = Z.max (e - 53) (-1074).
Proof. reflexivity. Qed.

Lemma shr_record_of_loc_spec m l :
  shr_record_of_loc m l =
  {| shr_m := m;
     shr_r := match l with loc_Inexact Eq | loc_Inexact Gt => true | _ => false end;
     shr_s := match l with loc_Inexact Lt | loc_Inexact Gt => true | _ => false end |}.
Proof. destruct l as [|[| |]]; reflexivity. Qed.

Lemma round_up_cases m r s :
  round_nearest_even m (loc_of_shr_record {| shr_m := m; shr_r := r; shr_s := s |}) = m
  \/ (round_nearest_even m (loc_of_shr_record {| shr_m := m; shr_r := r; shr_s := s |}) = m + 1
      /\ r = true /\ (s = false -> Z.odd m = true)).
Proof.
  destruct r, s; cbn [loc_of_shr_record round_nearest_even].
  - right. split; [reflexivity|split; [reflexivity|discriminate]].
  - rewrite <- Z.negb_odd. destruct (Z.odd m); cbn [negb]; [right|left]; auto.
  - left; reflexivity.
  - left; reflexivity.
Qed.

Lemma round_first mx ex lx : 0 <= mx ->
  let '(mrs, g) := shr_fexp prec emax mx ex lx in
  let m1 := shr_m mrs in
  let m2 := round_nearest_even m1 (loc_of_shr_record mrs) in
  g = Z.max ex (fexp prec emax (Zdigits2 mx + ex)) /\
  0 <= m1 < 2 ^ 53 /\
  (ex <= fexp prec emax (Zdigits2 mx + ex) -> g = -1074 \/ 2 ^ 52 <= m1) /\
  (g = ex -> m1 = mx) /\
  m1 * 2 ^ (g - ex) <= mx /\
  (m2 = m1 \/
   (m2 = m1 + 1 /\ (2 * m1 + 1) * 2 ^ (g - ex) <= 2 * (mx + inexact lx) /\
    ((2 * m1 + 1) * 2 ^ (g - ex) = 2 * (mx + inexact lx) ->
       lx = loc_Exact /\ Z.odd m1 = true) /\
    (g = ex -> inexact lx = 1))).
Proof.
  intros Hmx.
  pose proof (Zdigits2_bounds mx Hmx) as [HD1 HD2].
  pose proof (Zdigits2_nonneg mx) as HD0.
  set (D := Zdigits2 mx) in *.
  rewrite fexp_eq.
  unfold shr_fexp, shr. rewrite fexp_eq. fold D.
  rewrite shr_record_of_loc_spec.
  destruct (Z.max (D + ex - 53) (-1074) - ex) as [|p|p] eqn:Hd.
  - (* no shift, d = 0 *)
    simpl shr_m.
    replace (Z.max ex (Z.max (D + ex - 53) (-1074))) with ex by lia.
    rewrite Z.sub_diag, Z.pow_0_r.
    assert (Hn : ex <= Z.max (D + ex - 53) (-1074) -> ex = -1074 \/ 2 ^ 52 <= mx).
    { intros _. destruct (Z.eq_dec ex (-1074)) as [|Hne]; [left; assumption|right].
      replace 52 with (D - 1) by lia. exact HD1. }
    repeat split; try lia; try exact Hn.
    + assert (2 ^ D <= 2 ^ 53) by (apply Z.pow_le_mono_r; lia). lia.
    + destruct (round_up_cases mx
        (match lx with loc_Inexact Eq | loc_Inexact Gt => true | _ => false end)
        (match lx with loc_Inexact Lt | loc_Inexact Gt => true | _ => false end))
        as [H|(H & Hr & Hs)]; [left; exact H | right].
      destruct lx as [|c]; [discriminate Hr|]. simpl inexact.
      repeat split; try lia.
  - (* shift by k = Zpos p *)
    set (k := Zpos p) in *.
    rewrite iter_pos_nat.
    destruct (Pos.to_nat p) as [|n] eqn:Hn; [lia|].
    assert (Hk : Z.of_nat (S n) = k) by (unfold k; rewrite <- positive_nat_Z, Hn; reflexivity).
    rewrite shr_1_iter by lia. cbn [shr_m].
    rewrite Hk. replace (Z.of_nat n) with (k - 1) by lia.
    replace (Z.max ex (Z.max (D + ex - 53) (-1074))) with (ex + k) by lia.
    replace (ex + k - ex) with k by lia.
    assert (Hpk : 0 < 2 ^ k) by (apply Z.pow_pos_nonneg; lia).
    assert (Hpk1 : 2 ^ k = 2 * 2 ^ (k - 1))
      by (rewrite <- Z.pow_succ_r by lia; f_equal; lia).
    pose proof (Z.div_mod mx (2 ^ k) ltac:(lia)) as Hdm.
    pose proof (Z.mod_pos_bound mx (2 ^ k) Hpk) as Hmb.
    assert (Hq0 : 0 <= mx / 2 ^ k) by (apply Z.div_pos; lia).
    split; [lia|]. split; [split; [lia|]|]. 
    + apply Z.div_lt_upper_bound; [lia|].
      rewrite <- Z.pow_add_r by lia.
      eapply Z.lt_le_trans; [exact HD2|]. apply Z.pow_le_mono_r; lia.
    + split; [intros _|split; [lia|split]].
      * destruct (Z.max_spec (D + ex - 53) (-1074)) as [[_ Hm]|[_ Hm]]; [lia|].
        right. apply Z.div_le_lower_bound; [lia|].
        rewrite <- Z.pow_add_r by lia.
        eapply Z.le_trans; [|exact HD1]. apply Z.pow_le_mono_r; lia.
      * rewrite Z.mul_comm. apply Z.mul_div_le. lia.
      * set (rb := match lx with loc_Inexact Eq | loc_Inexact Gt => true | _ => false end).
        set (sb := match lx with loc_Inexact Lt | loc_Inexact Gt => true | _ => false end).
        assert (Hrs : rb || sb = (inexact lx =? 1))
          by (unfold rb, sb; destruct lx as [|[| |]]; reflexivity).
        destruct (round_up_cases (mx / 2 ^ k)
                    (2 ^ (k - 1) <=? mx mod 2 ^ k)
                    (negb (mx mod 2 ^ (k - 1) =? 0) || rb || sb))
          as [H|(H & Hr & Hs)]; [left; exact H | right].
        apply Z.leb_le in Hr.
        split; [exact H|]. split; [|split].
        -- assert (0 <= inexact lx) by (destruct lx; simpl; lia). lia.
        -- intros Heq.
           assert (Hl : inexact lx = 0 /\ mx mod 2 ^ k = 2 ^ (k - 1)).
           { assert (0 <= inexact lx <= 1) by (destruct lx; simpl; lia). lia. }
           destruct Hl as [Hl Hr2].
           split; [destruct lx; simpl in Hl; [reflexivity|discriminate]|].
           apply Hs.
           assert (Hz : mx mod 2 ^ (k - 1) = 0).
           { assert (Hk1 : 0 < 2 ^ (k - 1)) by (apply Z.pow_pos_nonneg; lia).
             pose proof (Zmod_mul_r mx (2 ^ (k - 1)) 2 Hk1 ltac:(lia)) as Hm.
             rewrite (Z.mul_comm (2 ^ (k - 1)) 2), <- Hpk1, Hr2 in Hm.
             pose proof (Z.mod_pos_bound mx (2 ^ (k - 1)) Hk1).
             assert (Ht : mx / 2 ^ (k - 1) mod 2 = 0 \/ mx / 2 ^ (k - 1) mod 2 = 1)
               by (pose proof (Z.mod_pos_bound (mx / 2 ^ (k - 1)) 2); lia).
             destruct Ht as [Ht|Ht]; rewrite Ht in Hm; lia. }
           rewrite Hz. simpl.
           rewrite Hrs, Hl. reflexivity.
        -- lia.
  - (* d < 0: no shift *)
    simpl shr_m.
    replace (Z.max ex (Z.max (D + ex - 53) (-1074))) with ex by lia.
    rewrite Z.sub_diag, Z.pow_0_r.
    repeat split; try lia.
    + assert (2 ^ D <= 2 ^ 53) by (apply Z.pow_le_mono_r; lia). lia.
    + destruct (round_up_cases mx
        (match lx with loc_Inexact Eq | loc_Inexact Gt => true | _ => false end)
        (match lx with loc_Inexact Lt | loc_Inexact Gt => true | _ => false end))
        as [H|(H & Hr & Hs)]; [left; exact H | right].
      destruct lx as [|c]; [discriminate Hr|]. simpl inexact.
      repeat split; try lia.
Qed.

Lemma round_second m2 g : 0 <= m2 <= 2 ^ 53 -> -1074 <= g ->
  let '(mrs, e) := shr_fexp prec emax m2 g loc_Exact in
  (m2 < 2 ^ 53 -> shr_m mrs = m2 /\ e = g) /\
  (m2 = 2 ^ 53 -> shr_m mrs = 2 ^ 52 /\ e = g + 1).
Proof.
  intros Hm Hg. unfold shr_fexp, shr. rewrite fexp_eq.
  destruct (Z.eq_dec m2 (2 ^ 53)) as [->|Hne].
  - replace (Zdigits2 (2 ^ 53)) with 54 by reflexivity.
    replace (Z.max (54 + g - 53) (-1074) - g) with 1 by lia.
    split; [lia|]. intros _. split; reflexivity.
  - assert (Hd : Z.max (Zdigits2 m2 + g - 53) (-1074) - g <= 0).
    { destruct (Z.eq_dec m2 0) as [->|Hz]; [simpl; lia|].
      pose proof (Zdigits2_bounds m2 ltac:(lia)) as [H1 _].
      assert (Zdigits2 m2 - 1 < 53).
      { destruct (Z.lt_ge_cases (Zdigits2 m2 - 1) 53); auto.
        assert (2 ^ 53 <= 2 ^ (Zdigits2 m2 - 1)) by (apply Z.pow_le_mono_r; lia). lia. }
      lia. }
    destruct (Z.max (Zdigits2 m2 + g - 53) (-1074) - g); [|lia|];
      (split; [intros _; split; reflexivity|intros; lia]).
Qed.

Lemma sv_shift m e e' : -scale <= e <= e' -> sv m e' = sv (m * 2 ^ (e' - e)) e.
Proof.
  intros H. unfold sv. rewrite <- Z.mul_assoc, <- Z.pow_add_r by (unfold scale in *; lia).
  f_equal. f_equal. lia.
Qed.

Lemma sv_le_iff a b e : -scale <= e -> sv a e <= sv b e <-> a <= b.
Proof.
  intros H. unfold sv.
  assert (0 < 2 ^ (e + scale)) by (apply Z.pow_pos_nonneg; unfold scale in *; lia).
  split; intros; nia.
Qed.

Lemma sv_le_inv a b e : -scale <= e -> sv a e <= sv b e -> a <= b.
Proof. intros H. apply sv_le_iff, H. Qed.

Lemma sv_le_mono a b e : a <= b -> sv a e <= sv b e.
Proof.
  intros H. unfold sv.
  assert (0 <= 2 ^ (e + scale)) by (apply Z.pow_nonneg; lia). nia.
Qed.

Lemma sv_add a b e : sv (a + b) e = sv a e + sv b e.
Proof. unfold sv. ring. Qed.

Lemma sv_mul_l c a e : sv (c * a) e = c * sv a e.
Proof. unfold sv. ring. Qed.

Lemma pow2_pos k : 0 <= k -> 0 < 2 ^ k.
Proof. intros. apply Z.pow_pos_nonneg; lia. Qed.

Lemma round_aux_le mx ex lx mF eF :
  0 <= mx -> -4000 <= ex ->
  (ex <= 971 \/ ex <= fexp prec emax (Zdigits2 mx + ex)) ->
  -1074 <= eF <= 971 -> 0 < mF < 2 ^ 53 -> (eF = -1074 \/ 2 ^ 52 <= mF) ->
  2 * sv (mx + inexact lx) ex <= sv (2 * mF + 1) eF ->
  (lx = loc_Exact -> 2 * sv mx ex = sv (2 * mF + 1) eF -> Z.even mF = true) ->
  le_bound (binary_round_aux prec emax false mx ex lx) mF eF.
Proof.
  intros Hmx Hex Hex2 HeF HmF HnF Hb Htie.
  unfold binary_round_aux.
  pose proof (round_first mx ex lx Hmx) as Hr.
  destruct (shr_fexp prec emax mx ex lx) as [mrs g] eqn:E1.
  cbv zeta in Hr.
  set (m1 := shr_m mrs) in *.
  set (m2 := round_nearest_even m1 (loc_of_shr_record mrs)) in *.
  destruct Hr as (Hg & Hm1 & Hnorm & Hgex & Htr & Hup).
  rewrite fexp_eq in Hg, Hnorm, Hex2.
  assert (Hge : ex <= g /\ -1074 <= g) by lia.
  assert (Hi : 0 <= inexact lx <= 1) by (destruct lx; simpl; lia).
  set (U := mx + inexact lx) in *.
  set (P := 2 ^ (g - ex)).
  assert (HP : 0 < P) by (apply pow2_pos; lia).
  (* every scaled value is read at exponent eF or g *)
  assert (HsvU : 2 * sv U ex <= sv (2 * mF + 1) eF) by exact Hb.
  assert (Htr' : sv m1 g <= sv mx ex).
  { rewrite (sv_shift m1 ex g) by (unfold scale; lia). apply sv_le_iff; [unfold scale; lia|]. exact Htr. }
  assert (HmxU : sv mx ex <= sv U ex) by (apply sv_le_iff; [unfold scale; lia|]; lia).
  (* main bound *)
  assert (Hmain : sv m2 g <= sv mF eF /\ m2 <= 2 ^ 53).
  { destruct (Z.le_gt_cases eF g) as [HgeF|HgeF].
    - set (Q := 2 ^ (g - eF)).
      assert (HQ : 0 < Q) by (apply pow2_pos; lia).
      assert (Hsv : forall a, sv a g = sv (a * Q) eF)
        by (intros a; apply sv_shift; unfold scale; lia).
      assert (HsF : forall a b, sv a eF <= sv b eF <-> a <= b)
        by (intros; apply sv_le_iff; unfold scale; lia).
      destruct Hup as [Hm2|(Hm2 & Hup1 & Hup2 & Hup3)].
      + rewrite Hm2. split; [|lia].
        rewrite Hsv. apply HsF.
        assert (H2 : 2 * sv (m1 * Q) eF <= sv (2 * mF + 1) eF) by (rewrite <- Hsv; lia).
        rewrite <- sv_mul_l in H2. apply (proj1 (HsF _ _)) in H2. nia.
      + rewrite Hm2.
        destruct (Z.eq_dec g ex) as [Hgx|Hgx].
        * specialize (Hup3 Hgx). specialize (Hgex Hgx).
          assert (HU : U = m1 + 1) by (unfold U; lia).
          split; [|lia]. rewrite <- HU, Hsv. apply HsF.
          assert (H2 : 2 * sv (U * Q) eF <= sv (2 * mF + 1) eF)
            by (rewrite <- Hsv, Hgx; exact HsvU).
          rewrite <- sv_mul_l in H2. apply (proj1 (HsF _ _)) in H2. nia.
        * assert (Hup1' : sv (2 * m1 + 1) g <= 2 * sv U ex).
          { rewrite (sv_shift _ ex g) by (unfold scale; lia). rewrite <- sv_mul_l.
            apply sv_le_iff; [unfold scale; lia|]. exact Hup1. }
          destruct (Z.eq_dec g eF) as [HgF|HgF].
          -- assert (Hle : 2 * m1 + 1 <= 2 * mF + 1).
             { apply HsF. rewrite HgF in Hup1'. lia. }
             split; [|lia]. rewrite HgF. apply HsF.
             destruct (Z.eq_dec m1 mF) as [Heq|Hneq]; [|lia].
             exfalso.
             assert (HeqU : sv (2 * m1 + 1) g = 2 * sv U ex).
             { apply Z.le_antisymm; [exact Hup1'|]. rewrite HgF, Heq. lia. }
             assert (Heq2 : (2 * m1 + 1) * P = 2 * U).
             { rewrite (sv_shift _ ex g), <- sv_mul_l in HeqU by (unfold scale; lia).
               apply Z.le_antisymm.
               - apply (sv_le_inv _ _ ex); [unfold scale; lia|]. fold P in HeqU. lia.
               - apply (sv_le_inv _ _ ex); [unfold scale; lia|]. fold P in HeqU. lia. }
             destruct (Hup2 Heq2) as [Hlx Hodd].
             assert (HU : U = mx) by (unfold U; rewrite Hlx; simpl; lia).
             assert (Ht : 2 * sv mx ex = sv (2 * mF + 1) eF).
             { rewrite <- HU, <- HeqU, HgF, Heq. reflexivity. }
             specialize (Htie Hlx Ht). rewrite <- Heq in Htie.
             rewrite <- Z.negb_odd, Hodd in Htie. discriminate.
          -- exfalso.
             destruct (Hnorm ltac:(lia)) as [Hgm|Hgm]; [lia|].
             assert (HQ2 : 2 <= Q).
             { unfold Q. replace 2 with (2 ^ 1) at 1 by reflexivity. apply Z.pow_le_mono_r; lia. }
             assert (H2 : 2 * sv (m1 * Q) eF <= sv (2 * mF + 1) eF) by (rewrite <- Hsv; lia).
             rewrite <- sv_mul_l in H2. apply (proj1 (HsF _ _)) in H2. nia.
    - (* g < eF: F is normal *)
      destruct HnF as [HnF|HnF]; [lia|].
      assert (Hm2le : m2 <= 2 ^ 53) by (destruct Hup as [->|(-> & _)]; lia).
      split; [|exact Hm2le].
      rewrite (sv_shift mF g eF) by (unfold scale; lia).
      apply sv_le_iff; [unfold scale; lia|].
      assert (2 <= 2 ^ (eF - g)).
      { replace 2 with (2 ^ 1) at 1 by reflexivity. apply Z.pow_le_mono_r; lia. }
      assert (0 <= m2) by (destruct Hup as [->|(-> & _)]; lia).
      nia. }
  destruct Hmain as [Hmain Hm2le].
  assert (Hm2pos : 0 <= m2) by (destruct Hup as [->|(-> & _)]; lia).
  pose proof (round_second m2 g (conj Hm2pos Hm2le) ltac:(lia)) as H2.
  destruct (shr_fexp prec emax m2 g loc_Exact) as [mrs' e''] eqn:E2.
  destruct H2 as [H2a H2b].
  (* the exponent never overflows *)
  assert (HgF1 : forall a, 2 ^ 52 <= a -> sv a g <= sv mF eF -> g <= eF).
  { intros a Ha Hle. destruct (Z.le_gt_cases g eF) as [|Hlt]; auto. exfalso.
    rewrite (sv_shift a eF g) in Hle by (unfold scale; lia).
    apply sv_le_iff in Hle; [|unfold scale; lia].
    assert (2 <= 2 ^ (g - eF)).
    { replace 2 with (2 ^ 1) at 1 by reflexivity. apply Z.pow_le_mono_r; lia. }
    nia. }
  destruct (Z.eq_dec m2 (2 ^ 53)) as [He|He].
  - destruct (H2b He) as [-> ->].
    assert (g + 1 <= eF).
    { assert (g <= eF) by (apply (HgF1 m2); lia).
      destruct (Z.eq_dec g eF) as [->|]; [|lia].
      exfalso. apply sv_le_iff in Hmain; [lia|unfold scale; lia]. }
    replace (g + 1 <=? emax - prec) with true by (symmetry; apply Z.leb_le; unfold emax, prec; lia).
    change (2 ^ 52) with (Zpos 4503599627370496). cbv iota beta. unfold le_bound.
    rewrite He in Hmain.
    rewrite (sv_shift 4503599627370496 g (g + 1)) by (unfold scale; lia).
    replace (g + 1 - g) with 1 by lia. exact Hmain.
  - destruct (H2a ltac:(lia)) as [-> ->].
    destruct m2 as [|pm|pm] eqn:Em2; [exact I| |lia].
    assert (g <= 971).
    { destruct (Z.le_gt_cases g 971) as [|Hbig]; [lia|].
      destruct (Hnorm ltac:(lia)) as [|Hn]; [lia|].
      assert (m1 <= Zpos pm) by (destruct Hup as [H|(H & _)]; lia).
      assert (g <= eF); [|lia].
      apply (HgF1 m1); [lia|].
      eapply Z.le_trans; [|exact Hmain]. apply sv_le_iff; [unfold scale; lia|lia]. }
    replace (g <=? emax - prec) with true by (symmetry; apply Z.leb_le; unfold emax, prec; lia).
    unfold le_bound. exact Hmain.
Qed.

Lemma valid_canon s m e :
  valid_binary (S754_finite s m e) = true -> canon (Zpos m) e.
Proof.
  cbn [valid_binary]. unfold bounded, canonical_mantissa.
  intros H. apply andb_prop in H as [H1 H2].
  apply Z.eqb_eq in H1. apply Z.leb_le in H2. rewrite fexp_eq in H1.
  pose proof (digits2_bounds m) as [Hd1 Hd2].
  set (d := Zpos (digits2_pos m)) in *.
  unfold emax, prec in H2.
  destruct (Z.max_spec (d + e - 53) (-1074)) as [[Hlt Hm]|[Hle Hm]]; rewrite Hm in H1.
  - subst e. split; [lia|]. split; [|left; reflexivity].
    split; [lia|]. eapply Z.lt_le_trans; [exact Hd2|]. apply Z.pow_le_mono_r; lia.
  - assert (d = 53) by lia. subst d. rewrite H in Hd1, Hd2.
    split; [lia|]. split; [lia|]. right. exact Hd1.
Qed.

Lemma prim_canon x s m e : Prim2SF x = S754_finite s m e -> canon (Zpos m) e.
Proof. intros H. apply (valid_canon s). rewrite <- H. apply Prim2SF_valid. Qed.

Lemma canon_lt m1 e1 m2 e2 : canon m1 e1 -> canon m2 e2 -> e1 < e2 -> sv m1 e1 < sv m2 e2.
Proof.
  intros (He1 & Hm1 & _) (He2 & Hm2 & [Hn2|Hn2]) Hlt; [lia|].
  unfold sv.
  assert (E : 2 ^ (e2 + scale) = 2 ^ (e2 - e1 - 1) * 2 * 2 ^ (e1 + scale)).
  { replace (e2 + scale) with ((e2 - e1 - 1) + 1 + (e1 + scale)) by ring.
    rewrite !Z.pow_add_r by (unfold scale; lia). rewrite Z.pow_1_r. ring. }
  assert (0 < 2 ^ (e1 + scale)) by (apply pow2_pos; unfold scale; lia).
  assert (1 <= 2 ^ (e2 - e1 - 1)) by (pose proof (pow2_pos (e2 - e1 - 1)); lia).
  assert (2 ^ 53 = 2 * 2 ^ 52) by reflexivity.
  rewrite E. nia.
Qed.

Lemma canon_unique m1 e1 m2 e2 : canon m1 e1 -> canon m2 e2 ->
  sv m1 e1 = sv m2 e2 -> m1 = m2 /\ e1 = e2.
Proof.
  intros H1 H2 Heq.
  destruct (Z.lt_trichotomy e1 e2) as [Hlt|[He|Hgt]].
  - pose proof (canon_lt _ _ _ _ H1 H2 Hlt). lia.
  - subst e2. split; [|reflexivity].
    apply Z.le_antisymm; apply (sv_le_inv _ _ e1);
      (unfold canon, scale in *; lia).
  - pose proof (canon_lt _ _ _ _ H2 H1 Hgt). lia.
Qed.

Lemma sv_pos m e : 0 < m -> -scale <= e -> 0 < sv m e.
Proof. intros. unfold sv. pose proof (pow2_pos (e + scale)). nia. Qed.

Lemma sv_nonneg m e : 0 <= m -> 0 <= sv m e.
Proof. intros. unfold sv. pose proof (Z.pow_nonneg 2 (e + scale)). nia. Qed.

Lemma fval_nonneg x : nonneg x -> 0 <= fval x.
Proof.
  destruct x as [s|s| |s m e]; cbn [nonneg fval]; try lia; try tauto.
  destruct s; [tauto|]. intros _. apply sv_nonneg. lia.
Qed.

Lemma le_bound_val x mF eF : 0 <= mF -> le_bound x mF eF -> le_val x (sv mF eF).
Proof.
  intros HmF. destruct x as [s|s| |s m e]; unfold le_val; cbn [le_bound nonneg fval]; try tauto.
  - intros _. split; [exact I|]. apply sv_nonneg; lia.
  - destruct s; [tauto|]. intros H. split; [exact I|exact H].
Qed.

(** the canonical double nearest a value below a half-ulp above [F] is below [F] *)
Lemma canon_le_half x mF eF :
  valid_binary x = true -> nonneg x -> canon mF eF ->
  2 * fval x <= sv (2 * mF + 1) eF ->
  (2 * fval x = sv (2 * mF + 1) eF -> Z.even mF = true) ->
  le_val x (sv mF eF).
Proof.
  intros Hv Hx HF Hb Ht.
  destruct x as [s|s| |s m e]; cbn [nonneg] in Hx; try tauto.
  - split; [exact I|]. cbn [fval]. apply sv_nonneg. unfold canon in HF; lia.
  - destruct s; [tauto|]. split; [exact I|]. cbn [fval cond_Zopp] in Hb, Ht |- *.
    pose proof (valid_canon _ _ _ Hv) as Hc.
    destruct (Z.lt_trichotomy e eF) as [Hlt|[He|Hgt]].
    + pose proof (canon_lt _ _ _ _ Hc HF Hlt). lia.
    + subst eF. rewrite <- sv_mul_l in Hb, Ht.
      apply sv_le_inv in Hb; [|unfold canon, scale in *; lia].
      apply sv_le_iff; [unfold canon, scale in *; lia|lia].
    + exfalso. destruct Hc as (He & Hm & [Hn|Hn]); [unfold canon in HF; lia|].
      rewrite <- sv_mul_l in Hb.
      rewrite (sv_shift _ eF e) in Hb by (unfold canon, scale in *; lia).
      apply sv_le_inv in Hb; [|unfold canon, scale in *; lia].
      assert (2 <= 2 ^ (e - eF)).
      { replace 2 with (2 ^ 1) at 1 by reflexivity. apply Z.pow_le_mono_r; lia. }
      destruct HF as (_ & HmF & _). assert (2 ^ 53 = 2 * 2 ^ 52) by reflexivity.
      nia.
Qed.

Lemma iter_xO m d : Zpos (Pos.iter xO m d) = Zpos m * 2 ^ Zpos d.
Proof.
  induction d as [|d IH] using Pos.peano_ind.
  - change (Pos.iter xO m 1) with (xO m). rewrite Pos2Z.inj_xO.
    change (2 ^ Zpos 1) with 2. ring.
  - rewrite Pos.iter_succ, Pos2Z.inj_succ, Z.pow_succ_r by lia.
    rewrite Pos2Z.inj_xO, IH. ring.
Qed.

Lemma shl_align_spec mx ex ex' :
  snd (shl_align mx ex ex') = Z.min ex ex' /\
  Zpos (fst (shl_align mx ex ex')) = Zpos mx * 2 ^ (ex - Z.min ex ex').
Proof.
  unfold shl_align. destruct (ex' - ex) as [|d|d] eqn:Hd; cbn [fst snd].
  - replace (Z.min ex ex') with ex by lia. rewrite Z.sub_diag. split; [reflexivity|ring].
  - replace (Z.min ex ex') with ex by lia. rewrite Z.sub_diag. split; [reflexivity|ring].
  - replace (Z.min ex ex') with ex' by lia. split; [reflexivity|].
    rewrite iter_xO. f_equal. f_equal. lia.
Qed.

Lemma shl_align_sv mx ex ex' : -scale <= Z.min ex ex' ->
  sv (Zpos (fst (shl_align mx ex ex'))) (snd (shl_align mx ex ex')) = sv (Zpos mx) ex.
Proof.
  intros H. destruct (shl_align_spec mx ex ex') as [H1 H2]. rewrite H1, H2.
  symmetry. apply sv_shift. lia.
Qed.

Lemma normalize_le M ez mF eF :
  0 <= M -> -1074 <= ez <= 971 -> canon mF eF ->
  2 * sv M ez <= sv (2 * mF + 1) eF ->
  (2 * sv M ez = sv (2 * mF + 1) eF -> Z.even mF = true) ->
  le_val (binary_normalize prec emax M ez false) (sv mF eF).
Proof.
  intros HM Hez HF Hb Ht.
  destruct M as [|p|p]; [|cbn [binary_normalize]|lia].
  - split; [exact I|]. cbn [fval]. apply sv_nonneg. unfold canon in HF; lia.
  - unfold binary_round.
    pose proof (shl_align_sv p ez (fexp prec emax (Zpos (digits2_pos p) + ez))) as Hsv.
    pose proof (shl_align_spec p ez (fexp prec emax (Zpos (digits2_pos p) + ez))) as [Hs _].
    destruct (shl_align p ez (fexp prec emax (Zpos (digits2_pos p) + ez))) as [mz ez'].
    cbn [fst snd] in Hsv, Hs. rewrite fexp_eq in Hsv, Hs.
    specialize (Hsv ltac:(unfold scale; lia)).
    destruct HF as (HeF & HmF & HnF).
    apply le_bound_val; [lia|].
    apply round_aux_le; try lia; cbn [inexact]; try rewrite Z.add_0_r; rewrite Hsv; auto.
Qed.

Lemma add_le x y bx by_ mF eF :
  valid_binary x = true -> valid_binary y = true ->
  le_val x bx -> le_val y by_ -> canon mF eF ->
  2 * (bx + by_) <= sv (2 * mF + 1) eF ->
  (2 * (bx + by_) = sv (2 * mF + 1) eF -> Z.even mF = true) ->
  le_val (SF64add x y) (sv mF eF).
Proof.
  intros Hvx Hvy [Hx Hbx] [Hy Hby] HF Hb Ht.
  pose proof (fval_nonneg x Hx). pose proof (fval_nonneg y Hy).
  assert (Hzero : le_val (S754_zero false) (sv mF eF))
    by (split; [exact I|]; cbn [fval]; apply sv_nonneg; unfold canon in HF; lia).
  destruct x as [sx|sx| |sx mx ex]; cbn [nonneg] in Hx; try tauto;
  destruct y as [sy|sy| |sy my ey]; cbn [nonneg] in Hy; try tauto.
  - unfold SF64add, SFadd. destruct sx, sy; try exact Hzero;
      (split; [exact I|]; cbn [fval]; apply sv_nonneg; unfold canon in HF; lia).
  - destruct sy; [tauto|]. unfold SF64add, SFadd.
    apply canon_le_half; auto; [lia|]. intros He. apply Ht. lia.
  - destruct sx; [tauto|]. unfold SF64add, SFadd.
    apply canon_le_half; auto; [lia|]. intros He. apply Ht. lia.
  - destruct sx; [tauto|]. destruct sy; [tauto|].
    pose proof (valid_canon _ _ _ Hvx) as Hcx. pose proof (valid_canon _ _ _ Hvy) as Hcy.
    unfold SF64add, SFadd. cbn [cond_Zopp].
    pose proof (shl_align_sv mx ex (Z.min ex ey)) as H1.
    pose proof (shl_align_sv my ey (Z.min ex ey)) as H2.
    pose proof (shl_align_spec mx ex (Z.min ex ey)) as [H1s _].
    pose proof (shl_align_spec my ey (Z.min ex ey)) as [H2s _].
    replace (Z.min ex (Z.min ex ey)) with (Z.min ex ey) in H1, H1s by lia.
    replace (Z.min ey (Z.min ex ey)) with (Z.min ex ey) in H2, H2s by lia.
    rewrite H1s in H1. rewrite H2s in H2.
    specialize (H1 ltac:(unfold canon, scale in *; lia)).
    specialize (H2 ltac:(unfold canon, scale in *; lia)).
    cbn [fval cond_Zopp] in *.
    apply normalize_le; [lia|unfold canon in *; lia|exact HF| |].
    + rewrite sv_add, H1, H2. lia.
    + rewrite sv_add, H1, H2. intros He. apply Ht. lia.
Qed.

Lemma sub_le x y bx mF eF :
  valid_binary x = true -> valid_binary y = true ->
  le_val x bx -> nonneg y -> fval y <= fval x -> canon mF eF ->
  2 * bx <= sv (2 * mF + 1) eF ->
  (2 * bx = sv (2 * mF + 1) eF -> Z.even mF = true) ->
  le_val (SF64sub x y) (sv mF eF).
Proof.
  intros Hvx Hvy [Hx Hbx] Hy Hyx HF Hb Ht.
  pose proof (fval_nonneg x Hx). pose proof (fval_nonneg y Hy).
  assert (Hzero : forall s, le_val (S754_zero s) (sv mF eF))
    by (intros; split; [exact I|]; cbn [fval]; apply sv_nonneg; unfold canon in HF; lia).
  destruct x as [sx|sx| |sx mx ex]; cbn [nonneg] in Hx; try tauto;
  destruct y as [sy|sy| |sy my ey]; cbn [nonneg] in Hy; try tauto.
  - unfold SF64sub, SFsub. destruct sx, sy; apply Hzero.
  - destruct sy; [tauto|]. exfalso. cbn [fval cond_Zopp] in *.
    pose proof (sv_pos (Zpos my) ey ltac:(lia) ltac:(pose proof (valid_canon _ _ _ Hvy); unfold canon, scale in *; lia)).
    lia.
  - destruct sx; [tauto|]. unfold SF64sub, SFsub.
    apply canon_le_half; auto; [lia|]. intros He. apply Ht. lia.
  - destruct sx; [tauto|]. destruct sy; [tauto|].
    pose proof (valid_canon _ _ _ Hvx) as Hcx. pose proof (valid_canon _ _ _ Hvy) as Hcy.
    unfold SF64sub, SFsub. cbn [cond_Zopp].
    pose proof (shl_align_sv mx ex (Z.min ex ey)) as H1.
    pose proof (shl_align_sv my ey (Z.min ex ey)) as H2.
    pose proof (shl_align_spec mx ex (Z.min ex ey)) as [H1s _].
    pose proof (shl_align_spec my ey (Z.min ex ey)) as [H2s _].
    replace (Z.min ex (Z.min ex ey)) with (Z.min ex ey) in H1, H1s by lia.
    replace (Z.min ey (Z.min ex ey)) with (Z.min ex ey) in H2, H2s by lia.
    rewrite H1s in H1. rewrite H2s in H2.
    specialize (H1 ltac:(unfold canon, scale in *; lia)).
    specialize (H2 ltac:(unfold canon, scale in *; lia)).
    cbn [fval cond_Zopp] in *.
    assert (Hsub : sv (Zpos (fst (shl_align mx ex (Z.min ex ey)))
                     - Zpos (fst (shl_align my ey (Z.min ex ey)))) (Z.min ex ey)
                   = sv (Zpos mx) ex - sv (Zpos my) ey)
      by (unfold sv in *; rewrite Z.mul_sub_distr_r; lia).
    apply normalize_le; [|unfold canon in *; lia|exact HF| |].
    + apply (sv_le_inv _ _ (Z.min ex ey)); [unfold canon, scale in *; lia|].
      rewrite Hsub. replace (sv 0 (Z.min ex ey)) with 0 by (unfold sv; ring). lia.
    + rewrite Hsub. lia.
    + rewrite Hsub. intros He. apply Ht. lia.
Qed.

Lemma pow2_lt_exp a b : 0 <= a -> 0 <= b -> 2 ^ a < 2 ^ b -> a < b.
Proof. intros Ha Hb H. apply (Z.pow_lt_mono_r_iff 2); lia. Qed.

Lemma pow2_le_exp a b : 0 <= a -> 0 <= b -> 2 ^ a <= 2 ^ b -> a <= b.
Proof. intros Ha Hb H. apply (Z.pow_le_mono_r_iff 2); lia. Qed.

Lemma mul_fexp mx ex my ey : canon mx ex -> canon my ey ->
  ex + ey <= fexp prec emax (Zdigits2 (mx * my) + (ex + ey)).
Proof.
  intros Hx Hy. rewrite fexp_eq.
  destruct Hx as (Hex & Hmx & Hnx), Hy as (Hey & Hmy & Hny).
  pose proof (Zdigits2_bounds mx ltac:(lia)) as [Hx1 Hx2].
  pose proof (Zdigits2_bounds my ltac:(lia)) as [Hy1 Hy2].
  pose proof (Zdigits2_bounds (mx * my) ltac:(nia)) as [_ Hp2].
  pose proof (Zdigits2_pos mx ltac:(lia)). pose proof (Zdigits2_pos my ltac:(lia)).
  pose proof (Zdigits2_pos (mx * my) ltac:(nia)).
  assert (Hd : Zdigits2 mx - 1 + (Zdigits2 my - 1) < Zdigits2 (mx * my)).
  { apply pow2_lt_exp; try lia. rewrite Z.pow_add_r by lia. nia. }
  destruct Hnx as [Hnx|Hnx]; [destruct Hny as [Hny|Hny]|].
  - lia.
  - assert (52 < Zdigits2 my) by (apply pow2_lt_exp; lia). lia.
  - assert (52 < Zdigits2 mx) by (apply pow2_lt_exp; lia). lia.
Qed.

Lemma sv_mul a b e1 e2 : -scale <= e1 -> -scale <= e2 -> 0 <= e1 + e2 + scale ->
  sv (a * b) (e1 + e2) * 2 ^ scale = sv a e1 * sv b e2.
Proof.
  intros. unfold sv.
  replace (a * b * 2 ^ (e1 + e2 + scale) * 2 ^ scale)
    with (a * b * (2 ^ (e1 + e2 + scale) * 2 ^ scale)) by ring.
  rewrite <- Z.pow_add_r by (unfold scale in *; lia).
  replace (e1 + e2 + scale + scale) with ((e1 + scale) + (e2 + scale)) by ring.
  rewrite Z.pow_add_r by lia. ring.
Qed.

Lemma mul_le x y bx by_ mF eF :
  valid_binary x = true -> valid_binary y = true ->
  le_val x bx -> le_val y by_ -> canon mF eF ->
  2 * (bx * by_) <= 2 ^ scale * sv (2 * mF + 1) eF ->
  (2 * (bx * by_) = 2 ^ scale * sv (2 * mF + 1) eF -> Z.even mF = true) ->
  le_val (SF64mul x y) (sv mF eF).
Proof.
  intros Hvx Hvy [Hx Hbx] [Hy Hby] HF Hb Ht.
  pose proof (fval_nonneg x Hx). pose proof (fval_nonneg y Hy).
  assert (Hzero : forall s, le_val (S754_zero s) (sv mF eF))
    by (intros; split; [exact I|]; cbn [fval]; apply sv_nonneg; unfold canon in HF; lia).
  destruct x as [sx|sx| |sx mx ex]; cbn [nonneg] in Hx; try tauto;
  destruct y as [sy|sy| |sy my ey]; cbn [nonneg] in Hy; try tauto;
    unfold SF64mul, SFmul; try apply Hzero.
  destruct sx; [tauto|]. destruct sy; [tauto|]. cbn [xorb].
  pose proof (valid_canon _ _ _ Hvx) as Hcx. pose proof (valid_canon _ _ _ Hvy) as Hcy.
  cbn [fval cond_Zopp] in *.
  assert (HP : 0 < 2 ^ scale) by (apply pow2_pos; unfold scale; lia).
  pose proof (sv_mul (Zpos mx) (Zpos my) ex ey
                ltac:(unfold canon, scale in *; lia) ltac:(unfold canon, scale in *; lia)
                ltac:(unfold canon, scale in *; lia)) as Hm.
  rewrite <- Pos2Z.inj_mul in Hm.
  set (V := sv (Zpos (mx * my)) (ex + ey)) in *.
  assert (Hvv : sv (Zpos mx) ex * sv (Zpos my) ey <= bx * by_).
  { apply Z.mul_le_mono_nonneg; lia. }
  destruct HF as (HeF & HmF & HnF).
  apply le_bound_val; [lia|].
  apply round_aux_le.
  - lia.
  - unfold canon in *; lia.
  - right. rewrite Pos2Z.inj_mul. apply mul_fexp; assumption.
  - lia.
  - lia.
  - exact HnF.
  - cbn [inexact]. rewrite Z.add_0_r. fold V.
    apply (Z.mul_le_mono_pos_r _ _ (2 ^ scale) HP). nia.
  - intros _ He. fold V in He. apply Ht.
    assert (2 * V * 2 ^ scale = 2 ^ scale * sv (2 * mF + 1) eF) by (rewrite <- He; ring).
    lia.
Qed.

Lemma new_location_inexact n r : inexact (new_location n r) = if r =? 0 then 0 else 1.
Proof.
  unfold new_location, new_location_even, new_location_odd.
  destruct (Z.even n), (r =? 0); reflexivity.
Qed.

(** the scaled value of the bound [1] *)
Lemma sv_one : sv (2 ^ 52) (-52) = 2 ^ scale.
Proof. reflexivity. Qed.

Lemma canon_one : canon (2 ^ 52) (-52).
Proof. unfold canon. split; [lia|]. split; [split; [lia|reflexivity]|right; lia]. Qed.

Lemma digits_exp m e b eb : 0 < m -> -scale <= e -> -scale <= eb -> 0 <= b ->
  sv m e <= sv (2 ^ b) eb -> Zdigits2 m - 1 + e <= b + eb.
Proof.
  intros Hm He Heb Hb H.
  pose proof (Zdigits2_bounds m ltac:(lia)) as [H1 _]. pose proof (Zdigits2_pos m Hm).
  unfold sv in H. rewrite <- Z.pow_add_r in H by (unfold scale in *; lia).
  assert (H2 : 2 ^ (Zdigits2 m - 1) * 2 ^ (e + scale) <= 2 ^ (b + (eb + scale))).
  { eapply Z.le_trans; [|exact H]. apply Z.mul_le_mono_nonneg_r; [|exact H1].
    apply Z.pow_nonneg; lia. }
  rewrite <- Z.pow_add_r in H2 by (unfold scale in *; lia).
  apply pow2_le_exp in H2; unfold scale in *; lia.
Qed.

Lemma div_le_one x y :
  valid_binary x = true -> valid_binary y = true ->
  nonneg x -> (exists my ey, y = S754_finite false my ey) -> fval x <= fval y ->
  le_val (SF64div x y) (2 ^ scale).
Proof.
  intros Hvx Hvy Hx (my & ey & ->) Hxy.
  rewrite <- sv_one.
  destruct x as [sx|sx| |sx mx ex]; cbn [nonneg] in Hx; try tauto.
  - split; [exact I|]. cbn [fval]. apply sv_nonneg; lia.
  - destruct sx; [tauto|]. cbn [fval cond_Zopp] in Hxy.
    pose proof (valid_canon _ _ _ Hvx) as Hcx. pose proof (valid_canon _ _ _ Hvy) as Hcy.
    unfold SF64div, SFdiv, SFdiv_core_binary. cbn [xorb].
    rewrite fexp_eq.
    set (d1 := Zdigits2 (Zpos mx)). set (d2 := Zdigits2 (Zpos my)).
    set (e' := Z.min (Z.max (d1 + ex - (d2 + ey) - 53) (-1074)) (ex - ey)).
    set (s := ex - ey - e').
    pose proof (Zdigits2_bounds (Zpos mx) ltac:(lia)) as [Hx1 Hx2].
    pose proof (Zdigits2_bounds (Zpos my) ltac:(lia)) as [Hy1 Hy2].
    pose proof (Zdigits2_pos (Zpos mx) ltac:(lia)). pose proof (Zdigits2_pos (Zpos my) ltac:(lia)).
    fold d1 d2 in Hx1, Hx2, Hy1, Hy2, H, H0.
    (* the exact quotient is at most 1, so its exponent is small *)
    assert (HD : d1 + ex - (d2 + ey) <= 0).
    { assert (Hl : sv (2 ^ (d1 - 1)) ex < sv (2 ^ d2) ey).
      { eapply Z.le_lt_trans; [apply sv_le_mono; exact Hx1|].
        eapply Z.le_lt_trans; [exact Hxy|].
        unfold sv. assert (0 < 2 ^ (ey + scale)) by (apply pow2_pos; unfold canon, scale in *; lia).
        nia. }
      unfold sv in Hl. rewrite <- !Z.pow_add_r in Hl by (unfold canon, scale in *; lia).
      apply pow2_lt_exp in Hl; unfold canon, scale in *; lia. }
    assert (He' : -2045 <= e' <= -53) by (unfold e', canon in *; lia).
    assert (Hs : 0 <= s) by (unfold s, e'; lia).
    set (m' := match s with Zpos _ => Z.shiftl (Zpos mx) s | Z0 => Zpos mx | Zneg _ => 0 end).
    assert (Hm' : m' = Zpos mx * 2 ^ s).
    { unfold m'. destruct s eqn:Es; [ring| |lia]. rewrite <- Es. apply Z.shiftl_mul_pow2. lia. }
    assert (Hmy : 0 < Zpos my) by lia.
    destruct (Z.div_eucl m' (Zpos my)) as [q r] eqn:Edv.
    assert (Hq : q = m' / Zpos my) by (unfold Z.div; rewrite Edv; reflexivity).
    assert (Hr : r = m' mod Zpos my) by (unfold Z.modulo; rewrite Edv; reflexivity).
    pose proof (Z.div_mod m' (Zpos my) ltac:(lia)) as Hdm.
    pose proof (Z.mod_pos_bound m' (Zpos my) Hmy) as Hrb.
    rewrite <- Hq, <- Hr in Hdm. rewrite <- Hr in Hrb.
    assert (Hm'0 : 0 <= m') by (rewrite Hm'; pose proof (pow2_pos s Hs); lia).
    assert (Hq0 : 0 <= q) by (rewrite Hq; apply Z.div_pos; lia).
    (* m' <= 2^-e' * my *)
    set (T := 2 ^ (- e')).
    assert (HT : 0 < T) by (apply pow2_pos; lia).
    assert (Hm'T : m' <= T * Zpos my).
    { apply (sv_le_inv _ _ (ey + e')); [unfold canon, scale in *; lia|].
      replace (sv m' (ey + e')) with (sv (Zpos mx) ex).
      2:{ rewrite Hm'. rewrite (sv_shift (Zpos mx) (ey + e') ex) by (unfold s, canon, scale in *; lia).
          f_equal. f_equal. f_equal. unfold s. ring. }
      replace (sv (T * Zpos my) (ey + e')) with (sv (Zpos my) ey); [exact Hxy|].
      unfold T, sv. replace (ey + scale) with (- e' + (ey + e' + scale)) by ring.
      rewrite Z.pow_add_r by (unfold canon, scale in *; lia). ring. }
    assert (Hqi : q + (if r =? 0 then 0 else 1) <= T).
    { destruct (Z.eqb_spec r 0); nia. }
    apply le_bound_val; [lia|].
    apply round_aux_le.
    + lia.
    + lia.
    + left. lia.
    + lia.
    + split; [lia|reflexivity].
    + right. lia.
    + rewrite new_location_inexact.
      assert (Hv : sv (q + (if r =? 0 then 0 else 1)) e' <= sv T e') by (apply sv_le_mono; exact Hqi).
      assert (HT1 : sv T e' = 2 ^ scale).
      { unfold T, sv. rewrite <- Z.pow_add_r by (unfold scale; lia). f_equal. ring. }
      assert (Hmid : sv (2 * 2 ^ 52 + 1) (-52) = 2 * 2 ^ scale + 2 ^ (scale - 52))
        by reflexivity.
      lia.
    + intros _ He. exfalso.
      assert (Hv : sv q e' <= sv T e') by (apply sv_le_mono; destruct (r =? 0); lia).
      assert (HT1 : sv T e' = 2 ^ scale).
      { unfold T, sv. rewrite <- Z.pow_add_r by (unfold scale; lia). f_equal. ring. }
      assert (Hmid : sv (2 * 2 ^ 52 + 1) (-52) = 2 * 2 ^ scale + 2 ^ (scale - 52))
        by reflexivity.
      assert (0 < 2 ^ (scale - 52)) by (apply pow2_pos; unfold scale; lia).
      lia.
Qed.

Lemma sqrt_le_one x :
  valid_binary x = true -> le_val x (2 ^ scale) ->
  le_val (SF64sqrt x) (2 ^ scale).
Proof.
  intros Hvx [Hx Hb].
  rewrite <- sv_one.
  destruct x as [sx|sx| |sx mx ex]; cbn [nonneg] in Hx; try tauto.
  - split; [exact I|]. cbn [fval]. apply sv_nonneg; lia.
  - destruct sx; [tauto|]. cbn [fval cond_Zopp] in Hb.
    pose proof (valid_canon _ _ _ Hvx) as Hcx.
    unfold SF64sqrt, SFsqrt, SFsqrt_core_binary.
    rewrite fexp_eq.
    set (d := Zdigits2 (Zpos mx)).
    set (e' := Z.min (Z.max (Z.div2 (d + ex + 1) - 53) (-1074)) (Z.div2 ex)).
    set (s := ex - 2 * e').
    pose proof (Zdigits2_pos (Zpos mx) ltac:(lia)) as Hd0. fold d in Hd0.
    assert (Hde : d - 1 + ex <= 0 + 0).
    { apply digits_exp; unfold canon, scale in *; try lia. replace (sv (2 ^ 0) 0) with (sv (2 ^ 52) (-52)) by reflexivity. exact Hb. }
    assert (Hdv : forall a, a = 2 * Z.div2 a + Z.b2z (Z.odd a))
      by (intros; apply Z.div2_odd).
    assert (Hd2 : Z.div2 (d + ex + 1) <= 1).
    { pose proof (Hdv (d + ex + 1)). destruct (Z.odd (d + ex + 1)); simpl Z.b2z in *; lia. }
    assert (Hd3 : 2 * Z.div2 ex <= ex /\ ex <= 2 * Z.div2 ex + 1).
    { pose proof (Hdv ex). destruct (Z.odd ex); simpl Z.b2z in *; lia. }
    assert (He' : -1074 <= e' <= -52) by (unfold e', canon in *; lia).
    assert (Hs : 0 <= s) by (unfold s, e'; lia).
    set (m' := match s with Zpos _ => Z.shiftl (Zpos mx) s | Z0 => Zpos mx | Zneg _ => 0 end).
    assert (Hm' : m' = Zpos mx * 2 ^ s).
    { unfold m'. destruct s eqn:Es; [ring| |lia]. rewrite <- Es. apply Z.shiftl_mul_pow2. lia. }
    assert (Hm'0 : 0 <= m') by (rewrite Hm'; pose proof (pow2_pos s Hs); lia).
    pose proof (Z.sqrtrem_spec m' Hm'0) as Hsr.
    destruct (Z.sqrtrem m') as [q r].
    destruct Hsr as [Hqr Hrb].
    set (T := 2 ^ (- e')).
    assert (HT : 0 < T) by (apply pow2_pos; lia).
    assert (Hm'T : m' <= T * T).
    { apply (sv_le_inv _ _ (2 * e')); [unfold scale; lia|].
      replace (sv m' (2 * e')) with (sv (Zpos mx) ex).
      2:{ rewrite Hm'. rewrite (sv_shift (Zpos mx) (2 * e') ex) by (unfold s, canon, scale in *; lia).
          reflexivity. }
      replace (sv (T * T) (2 * e')) with (sv (2 ^ 52) (-52)); [exact Hb|].
      rewrite sv_one. unfold T, sv.
      rewrite <- !Z.pow_add_r by (unfold scale; lia). f_equal. ring. }
    assert (Hq0 : 0 <= q) by nia.
    assert (Hqi : q + (if r =? 0 then 0 else 1) <= T).
    { destruct (Z.eqb_spec r 0); nia. }
    assert (HT1 : sv T e' = 2 ^ scale).
    { unfold T, sv. rewrite <- Z.pow_add_r by (unfold scale; lia). f_equal. ring. }
    assert (Hmid : sv (2 * 2 ^ 52 + 1) (-52) = 2 * 2 ^ scale + 2 ^ (scale - 52))
      by reflexivity.
    assert (0 < 2 ^ (scale - 52)) by (apply pow2_pos; unfold scale; lia).
    assert (Hinx : inexact (if r =? 0 then loc_Exact else loc_Inexact (if r <=? q then Lt else Gt))
                   = if r =? 0 then 0 else 1) by (destruct (r =? 0); reflexivity).
    apply le_bound_val; [lia|].
    apply round_aux_le.
    + lia.
    + lia.
    + left. lia.
    + lia.
    + split; [lia|reflexivity].
    + right. lia.
    + rewrite Hinx.
      assert (sv (q + (if r =? 0 then 0 else 1)) e' <= sv T e') by (apply sv_le_mono; exact Hqi).
      lia.
    + intros _ He. exfalso.
      assert (sv q e' <= sv T e') by (apply sv_le_mono; destruct (r =? 0); lia).
      lia.
Qed.

Lemma SFleb_nonneg a b :
  valid_binary a = true -> valid_binary b = true -> nonneg a -> nonneg b ->
  SFleb a b = (fval a <=? fval b).
Proof.
  intros Hva Hvb Ha Hb.
  destruct a as [sa|sa| |sa ma ea]; cbn [nonneg] in Ha; try tauto;
  destruct b as [sb|sb| |sb mb eb]; cbn [nonneg] in Hb; try tauto.
  - destruct sb; [tauto|]. unfold SFleb, SFcompare. cbv beta iota. cbn [fval cond_Zopp].
    pose proof (valid_canon _ _ _ Hvb). symmetry. apply Z.leb_le.
    apply sv_nonneg. lia.
  - destruct sa; [tauto|]. unfold SFleb, SFcompare. cbv beta iota. cbn [fval cond_Zopp].
    pose proof (valid_canon _ _ _ Hva) as Hc. symmetry. apply Z.leb_gt.
    apply sv_pos; unfold canon, scale in *; lia.
  - destruct sa; [tauto|]. destruct sb; [tauto|]. cbn [fval cond_Zopp].
    pose proof (valid_canon _ _ _ Hva) as Hca. pose proof (valid_canon _ _ _ Hvb) as Hcb.
    unfold SFleb, SFcompare.
    destruct (Z.compare_spec ea eb) as [He|Hlt|Hgt].
    + subst eb. change (Pos.compare_cont Eq ma mb) with (Z.compare (Zpos ma) (Zpos mb)).
      destruct (Z.compare_spec (Zpos ma) (Zpos mb)); symmetry;
        [apply Z.leb_le|apply Z.leb_le|apply Z.leb_gt];
        try (apply sv_le_iff; unfold canon, scale in *; lia).
      unfold sv. pose proof (pow2_pos (ea + scale) ltac:(unfold canon, scale in *; lia)). nia.
    + symmetry. apply Z.leb_le. pose proof (canon_lt _ _ _ _ Hca Hcb Hlt). lia.
    + symmetry. apply Z.leb_gt. pose proof (canon_lt _ _ _ _ Hcb Hca Hgt). lia.
Qed.

Lemma bh_spec k n F : bh k n F = true ->
  exists mF eF, Prim2SF F = S754_finite false mF eF /\ canon (Zpos mF) eF /\
    fv F = sv (Zpos mF) eF /\
    n <= k * sv (2 * Zpos mF + 1) eF /\
    (n = k * sv (2 * Zpos mF + 1) eF -> Z.even (Zpos mF) = true).
Proof.
  unfold bh, fv. destruct (Prim2SF F) as [| | |s mF eF] eqn:E; try discriminate.
  destruct s; [discriminate|]. intros H.
  exists mF, eF. split; [reflexivity|]. split; [apply (prim_canon F false); exact E|].
  split; [reflexivity|].
  apply orb_prop in H as [H|H].
  - apply Z.ltb_lt in H. split; [lia|intros; lia].
  - apply andb_prop in H as [H1 H2]. apply Z.eqb_eq in H1. split; [lia|auto].
Qed.

Lemma fle_weaken x b b' : fle x b -> b <= b' -> fle x b'.
Proof. intros [H1 H2] H. split; [exact H1|lia]. Qed.

Lemma fle_add x y bx by_ F : fle x bx -> fle y by_ -> bh 1 (2 * (bx + by_)) F = true ->
  fle (x + y)%float (fv F).
Proof.
  intros Hx Hy H. apply bh_spec in H as (mF & eF & _ & Hc & -> & H1 & H2).
  unfold fle. rewrite add_spec.
  apply add_le with bx by_; try apply Prim2SF_valid; auto; [lia|].
  intros He. apply H2. lia.
Qed.

Lemma fle_mul x y bx by_ F : fle x bx -> fle y by_ ->
  bh (2 ^ scale) (2 * (bx * by_)) F = true ->
  fle (x * y)%float (fv F).
Proof.
  intros Hx Hy H. apply bh_spec in H as (mF & eF & _ & Hc & -> & H1 & H2).
  unfold fle. rewrite mul_spec.
  apply mul_le with bx by_; try apply Prim2SF_valid; auto.
Qed.

Lemma prim_one : Prim2SF 1%float = S754_finite false 4503599627370496 (-52).
Proof. reflexivity. Qed.

Lemma fle_one_sub y : fle y (2 ^ scale) -> fle (1 - y)%float (2 ^ scale).
Proof.
  intros [Hy1 Hy2]. unfold fle. rewrite sub_spec. rewrite <- sv_one.
  apply sub_le with (2 ^ scale).
  - apply Prim2SF_valid.
  - apply Prim2SF_valid.
  - rewrite prim_one. split; [exact I|]. cbn [fval cond_Zopp]. apply Z.le_refl.
  - exact Hy1.
  - rewrite prim_one. cbn [fval cond_Zopp]. rewrite <- sv_one in Hy2. exact Hy2.
  - exact canon_one.
  - assert (Hmid : sv (2 * 2 ^ 52 + 1) (-52) = 2 * 2 ^ scale + 2 ^ (scale - 52))
      by reflexivity.
    assert (0 < 2 ^ (scale - 52)) by (apply pow2_pos; unfold scale; lia). lia.
  - intros He. exfalso.
    assert (Hmid : sv (2 * 2 ^ 52 + 1) (-52) = 2 * 2 ^ scale + 2 ^ (scale - 52))
      by reflexivity.
    assert (0 < 2 ^ (scale - 52)) by (apply pow2_pos; unfold scale; lia). lia.
Qed.

Lemma fle_div_one x y b : fle x b -> b <= fv y -> pos_finite y = true ->
  fle (x / y)%float (2 ^ scale).
Proof.
  intros [Hx1 Hx2] Hb Hy. unfold fle. rewrite div_spec.
  apply div_le_one; try apply Prim2SF_valid; auto.
  - unfold pos_finite in Hy. destruct (Prim2SF y) as [| | |[] m e]; try discriminate.
    exists m, e. reflexivity.
  - unfold fv in Hb. lia.
Qed.

Lemma fle_sqrt x : fle x (2 ^ scale) -> fle (PrimFloat.sqrt x) (2 ^ scale).
Proof.
  intros H. unfold fle. rewrite sqrt_spec. apply sqrt_le_one; [apply Prim2SF_valid|exact H].
Qed.

Lemma fle_of_leb x F : (0 <=? x)%float = true -> (x <=? F)%float = true ->
  pos_finite F = true -> fle x (fv F).
Proof.
  intros H0 H1 HF. rewrite leb_spec in H0, H1.
  assert (HnF : nonneg (Prim2SF F)).
  { unfold pos_finite in HF. destruct (Prim2SF F) as [| | |[] m e]; try discriminate; exact I. }
  assert (Hnx : nonneg (Prim2SF x)).
  { change (Prim2SF 0%float) with (S754_zero false) in H0.
    unfold pos_finite in HF. destruct (Prim2SF F) as [| | |[] mF eF]; try discriminate.
    destruct (Prim2SF x) as [[]|[]| |[] m e]; cbn in H0, H1; try discriminate; exact I. }
  rewrite SFleb_nonneg in H1 by (apply Prim2SF_valid || assumption).
  split; [exact Hnx|]. apply Z.leb_le in H1. exact H1.
Qed.

Lemma leb_of_fle x : fle x (2 ^ scale) -> (0 <=? x)%float && (x <=? 1)%float = true.
Proof.
  intros [Hn Hb]. rewrite !leb_spec.
  rewrite !SFleb_nonneg by (apply Prim2SF_valid || exact Hn || exact I || (rewrite prim_one; exact I)).
  rewrite prim_one. cbn [fval cond_Zopp]. change (Prim2SF 0%float) with (S754_zero false).
  cbn [fval]. rewrite <- sv_one in Hb.
  apply andb_true_intro. split; apply Z.leb_le; [apply fval_nonneg; exact Hn|exact Hb].
Qed.

Lemma round_aux_shape sx mx ex lx : 0 <= mx ->
  shape sx (binary_round_aux prec emax sx mx ex lx).
Proof.
  intros Hmx. unfold binary_round_aux.
  pose proof (round_first mx ex lx Hmx) as Hr.
  destruct (shr_fexp prec emax mx ex lx) as [mrs g] eqn:E1.
  cbv zeta in Hr.
  destruct Hr as (Hg & Hm1 & _ & _ & _ & Hup). rewrite fexp_eq in Hg.
  set (m2 := round_nearest_even (shr_m mrs) (loc_of_shr_record mrs)) in *.
  assert (Hm2 : 0 <= m2 <= 2 ^ 53) by (destruct Hup as [->|(-> & _)]; lia).
  pose proof (round_second m2 g Hm2 ltac:(lia)) as H2.
  destruct (shr_fexp prec emax m2 g loc_Exact) as [mrs' e''] eqn:E2.
  destruct H2 as [H2a H2b].
  assert (Hs : 0 <= shr_m mrs').
  { destruct (Z.eq_dec m2 (2 ^ 53)) as [He|He];
      [destruct (H2b He) as [-> _]|destruct (H2a ltac:(lia)) as [-> _]]; lia. }
  destruct (shr_m mrs') as [|p|p]; [reflexivity| |lia].
  destruct (e'' <=? emax - prec); reflexivity.
Qed.

Lemma normalize_shape M ez : 0 <= M -> shape false (binary_normalize prec emax M ez false).
Proof.
  intros HM. destruct M as [|p|p]; [reflexivity| |lia].
  cbn [binary_normalize]. unfold binary_round.
  destruct (shl_align p ez (fexp prec emax (Zpos (digits2_pos p) + ez))) as [mz ez'].
  apply round_aux_shape. lia.
Qed.

Lemma SFcompare_refl x : x <> S754_nan -> SFcompare x x = Some Eq.
Proof.
  intros H. destruct x as [[]|[]| |[] m e]; try reflexivity; [contradiction| |];
    cbn [SFcompare]; rewrite Z.compare_refl;
    change (Pos.compare_cont Eq m m) with (Pos.compare m m); rewrite Pos.compare_refl; reflexivity.
Qed.

Lemma SFcompare_swap a b : SFcompare b a = option_map CompOpp (SFcompare a b).
Proof.
  destruct a as [[]|[]| |[] ma ea], b as [[]|[]| |[] mb eb]; try reflexivity;
    cbn [SFcompare option_map];
    rewrite (Z.compare_antisym ea eb);
    destruct (ea ?= eb); try reflexivity; cbn [CompOpp];
    change (Pos.compare_cont Eq mb ma) with (Pos.compare mb ma);
    change (Pos.compare_cont Eq ma mb) with (Pos.compare ma mb);
    rewrite (Pos.compare_antisym ma mb); try reflexivity.
Qed.

Lemma Zrange_all (f : Z -> bool) n : forallb f (Zrange n) = true ->
  forall v, 0 <= v < Z.of_nat n -> f v = true.
Proof.
  intros H v Hv. rewrite forallb_forall in H. apply H.
  unfold Zrange. apply in_map_iff. exists (Z.to_nat v). split; [lia|].
  apply in_seq. lia.
Qed.

Lemma term_bound (t : Z -> float) v :
  forallb (term_ok t) (Zrange 256) = true -> pos_finite (t 255) = true ->
  byte v -> fle (t v) (fv (t 255)).
Proof.
  intros H Hp Hv. pose proof (Zrange_all _ _ H v ltac:(unfold byte in Hv; lia)) as Hv'.
  unfold term_ok in Hv'. apply andb_prop in Hv' as [H1 H2].
  apply fle_of_leb; assumption.
Qed.

Lemma gA_ok : forallb (term_ok gA) (Zrange 256) = true. Proof. reflexivity. Qed.

Lemma gB_ok : forallb (term_ok gB) (Zrange 256) = true. Proof. reflexivity. Qed.

Lemma gC_ok : forallb (term_ok gC) (Zrange 256) = true. Proof. reflexivity. Qed.

Lemma luma_bound r g b : byte r -> byte g -> byte b ->
  fle (luma (fZ r) (fZ g) (fZ b)) (2 ^ scale).
Proof.
  intros Hr Hg Hb. unfold luma.
  apply fle_div_one with (fv ((gA 255 + gB 255) + gC 255)%float);
    [| apply Z.leb_le; reflexivity | reflexivity].
  apply fle_add with (fv (gA 255 + gB 255)%float) (fv (gC 255)); [| |reflexivity].
  - apply fle_add with (fv (gA 255)) (fv (gB 255)); [| |reflexivity].
    + apply (term_bound gA); [exact gA_ok|reflexivity|exact Hr].
    + apply (term_bound gB); [exact gB_ok|reflexivity|exact Hg].
  - apply (term_bound gC); [exact gC_ok|reflexivity|exact Hb].
Qed.

Lemma cA_ok : forallb (term_ok cA) (Zrange 256) = true. Proof. reflexivity. Qed.

Lemma cB_ok : forallb (term_ok cB) (Zrange 256) = true. Proof. reflexivity. Qed.

Lemma cC_ok : forallb (term_ok cC) (Zrange 256) = true. Proof. reflexivity. Qed.

Lemma color_brightness_bound r g b : byte r -> byte g -> byte b ->
  fle (color_brightness (fZ r) (fZ g) (fZ b)) (2 ^ scale).
Proof.
  intros Hr Hg Hb. unfold color_brightness. apply fle_sqrt.
  apply fle_weaken with (fv ((cA 255 + cB 255) + cC 255)%float);
    [| apply Z.leb_le; reflexivity].
  apply fle_add with (fv (cA 255 + cB 255)%float) (fv (cC 255)); [| |reflexivity].
  - apply fle_add with (fv (cA 255)) (fv (cB 255)); [| |reflexivity].
    + apply (term_bound cA); [exact cA_ok|reflexivity|exact Hr].
    + apply (term_bound cB); [exact cB_ok|reflexivity|exact Hg].
  - apply (term_bound cC); [exact cC_ok|reflexivity|exact Hb].
Qed.

Lemma brightness_bound s r g b : byte r -> byte g -> byte b ->
  fle (brightness_of s (fZ r) (fZ g) (fZ b)) (2 ^ scale).
Proof.
  intros Hr Hg Hb. unfold brightness_of.
  assert (H0 : fle (if grayscale s then luma (fZ r) (fZ g) (fZ b)
                    else color_brightness (fZ r) (fZ g) (fZ b)) (2 ^ scale))
    by (destruct (grayscale s); [apply luma_bound|apply color_brightness_bound]; assumption).
  destruct (inverted s); [apply fle_one_sub|]; exact H0.
Qed.

Lemma fZ_exact_ok : forallb fZ_exact (map Z.succ (Zrange 100)) = true.
Proof. reflexivity. Qed.

Lemma index_exact_ok : forallb index_exact (Zrange 101) = true.
Proof. reflexivity. Qed.

Lemma fZ_small n : 0 < n <= 100 ->
  exists m e, Prim2SF (fZ n) = S754_finite false m e /\ sv (Zpos m) e = sv n 0.
Proof.
  intros Hn.
  assert (H : fZ_exact n = true).
  { pose proof fZ_exact_ok as H. rewrite forallb_forall in H. apply H.
    apply in_map_iff. exists (n - 1). split; [lia|].
    unfold Zrange. apply in_map_iff. exists (Z.to_nat (n - 1)). split; [lia|].
    apply in_seq. lia. }
  unfold fZ_exact in H.
  destruct (Prim2SF (fZ n)) as [| | |[] m e]; try discriminate.
  exists m, e. split; [reflexivity|]. apply Z.eqb_eq. exact H.
Qed.

Lemma index_small n : 0 <= n <= 100 -> js_index_of (fZ n) = Some (Z.to_nat n).
Proof.
  intros Hn. pose proof (Zrange_all _ _ index_exact_ok n ltac:(lia)) as H.
  unfold index_exact in H. destruct (js_index_of (fZ n)) as [k|]; [|discriminate].
  apply Nat.eqb_eq in H. subst k. reflexivity.
Qed.

Lemma prim_fZ0 : Prim2SF (fZ 0) = S754_zero false.
Proof. reflexivity. Qed.

Lemma prim_neg_zero : Prim2SF (-0)%float = S754_zero true.
Proof. reflexivity. Qed.

Lemma js_floor_small x K : 0 <= K <= 100 -> fle x (sv K 0) ->
  exists n, 0 <= n <= K /\
    (js_floor x = fZ n \/ (js_floor x = (-0)%float /\ Prim2SF x = S754_zero true)).
Proof.
  intros HK [Hn Hb]. unfold js_floor.
  destruct (Prim2SF x) as [[]|[]| |[] m e] eqn:E; cbn [nonneg] in Hn; try tauto.
  - exists 0. split; [lia|]. right. split; [|reflexivity].
    apply Prim2SF_inj. rewrite E. reflexivity.
  - exists 0. split; [lia|]. left.
    apply Prim2SF_inj. rewrite E. reflexivity.
  - cbn [fval cond_Zopp] in Hb. pose proof (prim_canon _ _ _ _ E) as Hc.
    destruct (Z.leb_spec 0 e) as [He|He].
    + set (n := Zpos m * 2 ^ e).
      assert (Hsv : sv (Zpos m) e = sv n 0)
        by (unfold n; rewrite (sv_shift (Zpos m) 0 e) by (unfold scale; lia); rewrite Z.sub_0_r; reflexivity).
      assert (Hpos : 0 < n) by (unfold n; pose proof (pow2_pos e He); lia).
      assert (HnK : n <= K) by (apply (sv_le_inv _ _ 0); [unfold scale; lia|lia]).
      exists n. split; [lia|]. left.
      destruct (fZ_small n ltac:(lia)) as (m' & e' & E' & Hv').
      pose proof (prim_canon _ _ _ _ E') as Hc'.
      destruct (canon_unique _ _ _ _ Hc Hc' ltac:(lia)) as [Hm He'].
      apply Prim2SF_inj. rewrite E, E'. injection Hm as ->. subst e'. reflexivity.
    + exists (Zpos m / 2 ^ (- e)). cbn [sf_mant].
      assert (Hp : 0 < 2 ^ (- e)) by (apply pow2_pos; lia).
      split; [split|left; reflexivity].
      * apply Z.div_pos; lia.
      * apply Z.div_le_upper_bound; [lia|].
        rewrite (sv_shift K e 0) in Hb by (unfold canon, scale in *; lia).
        apply sv_le_inv in Hb; [|unfold canon, scale in *; lia].
        replace (0 - e) with (- e) in Hb by lia. lia.
Qed.

Lemma charSets_cases key cs : charSets key = Some cs ->
  cs = standard \/ cs = detailed \/ cs = blocks \/ cs = minimal \/ cs = artistic \/ cs = retro.
Proof.
  unfold charSets.
  repeat match goal with |- context [String.eqb ?a ?b] => destruct (String.eqb a b) end;
    intros H; inversion H; tauto.
Qed.

Lemma ramps_ok key cs : charSets key = Some cs -> ramp_ok (cs_chars cs) = true.
Proof.
  intros H. apply charSets_cases in H.
  destruct H as [->|[->|[->|[->|[->| ->]]]]]; reflexivity.
Qed.

Lemma ramps_extra_ok key cs : charSets key = Some cs -> ramp_extra_ok (cs_chars cs) = true.
Proof.
  intros H. apply charSets_cases in H.
  destruct H as [->|[->|[->|[->|[->| ->]]]]]; reflexivity.
Qed.

Lemma char_index_cases chars br : ramp_ok chars = true -> fle br (2 ^ scale) ->
  exists n, 0 <= n <= ramp_K chars /\
    (char_index chars br = fZ n \/
     (char_index chars br = (-0)%float /\ Prim2SF (br * fZ (ramp_K chars))%float = S754_zero true)).
Proof.
  intros Hok Hb. unfold ramp_ok in Hok.
  set (K := ramp_K chars) in *.
  apply andb_prop in Hok as [Hok Hsv]. apply andb_prop in Hok as [Hok Hbh].
  apply andb_prop in Hok as [Hok Hle2]. apply andb_prop in Hok as [Hok Hle1].
  apply andb_prop in Hok as [Hok Hpf]. apply andb_prop in Hok as [H0 H100].
  apply Z.ltb_lt in H0. apply Z.leb_le in H100. apply Z.eqb_eq in Hsv.
  assert (HK : fle (fZ K) (fv (fZ K))) by (apply fle_of_leb; auto).
  assert (Hm : fle (br * fZ K)%float (fv (fZ K))) by (apply fle_mul with (2 ^ scale) (fv (fZ K)); auto).
  rewrite Hsv in Hm.
  destruct (js_floor_small _ K ltac:(lia) Hm) as (n & Hn & Hc).
  exists n. split; [exact Hn|]. unfold char_index. fold (ramp_K chars). fold K. exact Hc.
Qed.

Lemma is_nan_false x : Prim2SF x <> S754_nan -> is_nan x = false.
Proof.
  intros H. unfold is_nan. rewrite FloatAxioms.eqb_spec. unfold SFeqb.
  rewrite SFcompare_refl by exact H. reflexivity.
Qed.

Lemma shape_not_nan s x : shape s x -> x <> S754_nan.
Proof. destruct x; cbn [shape]; congruence. Qed.

Lemma fZ_shape z : 0 <= z -> shape false (Prim2SF (fZ z)).
Proof.
  intros Hz. unfold fZ. replace (z <? 0) with false by (symmetry; apply Z.ltb_ge; lia).
  rewrite of_uint63_spec. apply normalize_shape.
  apply Uint63.to_Z_bounded.
Qed.

Lemma fZ_not_nan z : Prim2SF (fZ z) <> S754_nan.
Proof.
  destruct (Z.ltb_spec z 0) as [Hz|Hz].
  - unfold fZ. replace (z <? 0) with true by (symmetry; apply Z.ltb_lt; lia).
    rewrite FloatAxioms.opp_spec, of_uint63_spec.
    pose proof (normalize_shape (to_Z (Uint63.of_Z (- z))) 0 (proj1 (Uint63.to_Z_bounded _))) as H.
    destruct (binary_normalize prec emax (to_Z (Uint63.of_Z (- z))) 0 false); cbn [SFopp shape] in *; try discriminate; contradiction.
  - apply (shape_not_nan false). apply fZ_shape. lia.
Qed.

Lemma js_round_not_nan x : Prim2SF x <> S754_nan -> Prim2SF (js_round x) <> S754_nan.
Proof.
  intros H. unfold js_round.
  destruct (Prim2SF x) as [s|s| |s m e] eqn:E; try (rewrite E; assumption).
  destruct (0 <=? e); [rewrite E; discriminate|].
  destruct (s && _); [discriminate|apply fZ_not_nan].
Qed.

Lemma cmp_leb a b : Prim2SF a <> S754_nan -> Prim2SF b <> S754_nan ->
  exists c, SFcompare (Prim2SF a) (Prim2SF b) = Some c /\
    (a <? b)%float = (match c with Lt => true | _ => false end) /\
    (b <? a)%float = (match c with Gt => true | _ => false end) /\
    (a <=? b)%float = (match c with Gt => false | _ => true end) /\
    (b <=? a)%float = (match c with Lt => false | _ => true end).
Proof.
  intros Ha Hb.
  destruct (SFcompare (Prim2SF a) (Prim2SF b)) as [c|] eqn:E.
  - exists c. split; [reflexivity|].
    rewrite !FloatAxioms.ltb_spec, !FloatAxioms.leb_spec. unfold SFltb, SFleb.
    rewrite (SFcompare_swap (Prim2SF a) (Prim2SF b)), E. cbn [option_map].
    destruct c; repeat split.
  - exfalso. destruct (Prim2SF a) as [[]|[]| |[] ma ea], (Prim2SF b) as [[]|[]| |[] mb eb];
      discriminate || congruence.
Qed.

Lemma clamp_range x : Prim2SF x <> S754_nan ->
  (40 <=? js_max (js_min x 255) minBrightness)%float
  && (js_max (js_min x 255) minBrightness <=? 255)%float = true.
Proof.
  intros Hx. unfold js_min, js_max, minBrightness.
  assert (H255 : Prim2SF 255%float <> S754_nan) by discriminate.
  assert (H40 : Prim2SF 40%float <> S754_nan) by discriminate.
  rewrite (is_nan_false x Hx), (is_nan_false 255 H255). cbn [orb].
  destruct (cmp_leb x 255 Hx H255) as (c & _ & Hlt1 & Hlt2 & Hle1 & Hle2).
  rewrite Hlt1, Hlt2.
  (* the result of [Math.min] is at most 255 and not NaN *)
  assert (Hm : exists y, Prim2SF y <> S754_nan /\ (y <=? 255)%float = true /\
                 (if match c with Lt => true | _ => false end then x
                  else if match c with Gt => true | _ => false end then 255%float
                  else if get_sign x then x else 255%float) = y).
  { destruct c; cbv beta iota.
    - destruct (get_sign x); [exists x; rewrite Hle1|exists 255%float];
        (split; [assumption|split; reflexivity]).
    - exists x. rewrite Hle1. split; [assumption|split; reflexivity].
    - exists 255%float. split; [assumption|split; reflexivity]. }
  destruct Hm as (y & Hy & Hy255 & ->).
  rewrite (is_nan_false y Hy), (is_nan_false 40 H40). cbn [orb].
  destruct (cmp_leb y 40 Hy H40) as (c' & _ & Hl1 & Hl2 & Hl3 & Hl4).
  rewrite Hl1, Hl2. destruct c'; cbv beta iota.
  - destruct (get_sign y); [reflexivity|]. rewrite Hl4, Hy255. reflexivity.
  - reflexivity.
  - rewrite Hl4, Hy255. reflexivity.
Qed.

Lemma fle_not_nan x b : fle x b -> Prim2SF x <> S754_nan.
Proof. intros [H _]. destruct (Prim2SF x); cbn [nonneg] in H; congruence || tauto. Qed.

Lemma fZ_byte_ok : forallb (term_ok fZ) (Zrange 256) = true.
Proof. reflexivity. Qed.

Lemma adjust_channel_range v f : byte v -> factor_ok f = true ->
  (40 <=? adjust_channel (fZ v) f)%float && (adjust_channel (fZ v) f <=? 255)%float = true.
Proof.
  intros Hv Hf. unfold adjust_channel. apply clamp_range. apply js_round_not_nan.
  apply (fle_not_nan _ (fv 510)). apply fle_mul with (fv (fZ 255)) (fv 2).
  - apply (term_bound fZ); [exact fZ_byte_ok|reflexivity|exact Hv].
  - unfold factor_ok in Hf. apply andb_prop in Hf as [Hf H2].
    apply andb_prop in Hf as [H0 _]. apply fle_of_leb; [exact H0|exact H2|reflexivity].
  - reflexivity.
Qed.

Lemma ramp_K_range chars : ramp_ok chars = true -> 0 < ramp_K chars <= 100.
Proof.
  unfold ramp_ok. intros H. repeat rewrite andb_true_iff in H.
  destruct H as [[[[[[H0 H1] _] _] _] _] _]. apply Z.ltb_lt in H0. apply Z.leb_le in H1. lia.
Qed.

Lemma factor_range chars br : ramp_ok chars = true -> ramp_extra_ok chars = true ->
  fle br (2 ^ scale) -> factor_ok (brightness_factor chars (char_index chars br)) = true.
Proof.
  intros Hok Hex Hb. pose proof (ramp_K_range _ Hok) as HK.
  unfold ramp_extra_ok in Hex. apply andb_prop in Hex as [Hex _].
  apply andb_prop in Hex as [H1 H2].
  destruct (char_index_cases _ _ Hok Hb) as (n & Hn & [-> | [-> _]]).
  - apply (Zrange_all _ _ H1). lia.
  - exact H2.
Qed.

Lemma walk_fuel_range fuel v k lim : 0 <= v -> 0 < k ->
  forall x, In x (walk_fuel fuel v k lim) -> v <= x < lim.
Proof.
  revert v. induction fuel as [|f IH]; intros v Hv Hk x Hx; cbn [walk_fuel] in Hx.
  - contradiction.
  - destruct (Z.ltb_spec v lim) as [Hl|Hl]; [|contradiction].
    destruct Hx as [<-|Hx]; [lia|].
    apply IH in Hx; lia.
Qed.

Lemma walk_range lim st xs : walk lim st = Some xs -> forall x, In x xs -> 0 <= x < lim.
Proof.
  intros H x Hx. destruct st as [k| | |]; cbn [walk] in H.
  - destruct (Z.ltb_spec 0 k) as [Hk|Hk].
    + injection H as <-. apply walk_fuel_range in Hx; lia.
    + destruct (0 <? lim); [discriminate|]. injection H as <-. contradiction.
  - destruct (Z.ltb_spec 0 lim); injection H as <-; cbn [In] in Hx; intuition lia.
  - destruct (0 <? lim); [discriminate|]. injection H as <-. contradiction.
  - destruct (Z.ltb_spec 0 lim); injection H as <-; cbn [In] in Hx; intuition lia.
Qed.

Lemma pixel_pos_bound W H x y : 0 <= x < W -> 0 <= y < H ->
  0 <= pixel_pos W x y /\ pixel_pos W x y + 2 < 4 * W * H.
Proof. intros Hx Hy. unfold pixel_pos. nia. Qed.

Lemma nth_error_in_range (data : list Z) i : 0 <= i < Z.of_nat (List.length data) ->
  exists v, nth_error data (Z.to_nat i) = Some v /\ In v data.
Proof.
  intros Hi. destruct (nth_error data (Z.to_nat i)) as [v|] eqn:E.
  - exists v. split; [reflexivity|]. eapply nth_error_In. exact E.
  - apply nth_error_None in E. lia.
Qed.

Lemma read_byte data i : Forall byte data -> 0 <= i < Z.of_nat (List.length data) ->
  exists v, byte v /\ read data i = fZ v.
Proof.
  intros Hb Hi. destruct (nth_error_in_range data i Hi) as (v & E & Hin).
  exists v. split; [exact (proj1 (Forall_forall _ _) Hb v Hin)|].
  unfold read. rewrite E. reflexivity.
Qed.

Lemma cell_at_rgb s chars data W H x y : wf_pixels W H data ->
  0 <= x < W -> 0 <= y < H ->
  exists r g b, byte r /\ byte g /\ byte b /\
    cell_at s chars data W x y = cell_of_rgb s chars (fZ r) (fZ g) (fZ b).
Proof.
  intros [Hl Hb] Hx Hy. pose proof (pixel_pos_bound W H x y Hx Hy) as Hp.
  destruct (read_byte data (pixel_pos W x y) Hb ltac:(lia)) as (r & Hr & Er).
  destruct (read_byte data (pixel_pos W x y + 1) Hb ltac:(lia)) as (g & Hg & Eg).
  destruct (read_byte data (pixel_pos W x y + 2) Hb ltac:(lia)) as (b & Hbb & Eb).
  exists r, g, b. split; [exact Hr|split; [exact Hg|split; [exact Hbb|]]].
  unfold cell_at. cbv zeta. rewrite Er, Eg, Eb. reflexivity.
Qed.

(** The shape of a successful conversion. *)
Lemma convert_done ctx img s text grid :
  convertToAscii ctx (Some img) s = Done text grid ->
  exists data cs xs ys,
    pixels img = Some data /\ charSets (charSet s) = Some cs /\
    (forall x, In x xs -> 0 <= x < js_or (naturalWidth img) (width img)) /\
    (forall y, In y ys -> 0 <= y < js_or (naturalHeight img) (height img)) /\
    grid = map (fun y => map (fun x =>
             cell_at s (cs_chars cs) data (js_or (naturalWidth img) (width img)) x y) xs) ys /\
    text = List.concat (map row_text grid).
Proof.
  unfold convertToAscii. cbv zeta.
  destruct (_ || _); [discriminate|]. destruct ctx; [|discriminate]. cbn [negb].
  destruct (pixels img) as [data|]; [|discriminate].
  destruct (charSets (charSet s)) as [cs|]; [|discriminate].
  match goal with |- context [walk ?l ?st] =>
    match l with js_or (naturalHeight _) _ => destruct (walk l st) as [ys|] eqn:Ey end end;
    [|discriminate].
  destruct ys as [|y0 ys'].
  - intros H. injection H as <- <-. exists data, cs, [], [].
    split; [reflexivity|split; [reflexivity|split; [intros ? []|split; [intros ? []|split; reflexivity]]]].
  - match goal with |- context [walk ?l ?st] => destruct (walk l st) as [xs|] eqn:Ex end;
      [|discriminate].
    intros H. injection H as <- <-. exists data, cs, xs, (y0 :: ys').
    split; [reflexivity|split; [reflexivity|split; [|split; [|split; reflexivity]]]];
      intros; eapply walk_range; eassumption.
Qed.

Lemma index_neg_zero : js_index_of (-0)%float = Some O.
Proof. reflexivity. Qed.

Lemma char_index_lookup chars br : ramp_ok chars = true -> fle br (2 ^ scale) ->
  exists n, 0 <= n <= ramp_K chars /\
    (char_index chars br = fZ n \/ (n = 0 /\ char_index chars br = (-0)%float)) /\
    js_index_of (char_index chars br) = Some (Z.to_nat n) /\
    exists u, nth_error chars (Z.to_nat n) = Some u.
Proof.
  intros Hok Hb. pose proof (ramp_K_range _ Hok) as HK.
  assert (Hu : forall n, 0 <= n <= ramp_K chars -> exists u, nth_error chars (Z.to_nat n) = Some u).
  { intros n Hn. destruct (nth_error chars (Z.to_nat n)) as [u|] eqn:E; [exists u; reflexivity|].
    apply nth_error_None in E. unfold ramp_K in Hn. lia. }
  destruct (char_index_cases _ _ Hok Hb) as (n & Hn & [E | [E _]]).
  - exists n. split; [exact Hn|]. split; [left; exact E|]. split; [|apply Hu; exact Hn].
    rewrite E. apply index_small. lia.
  - exists 0. split; [lia|]. split; [right; split; [reflexivity|exact E]|].
    split; [|apply Hu; lia]. rewrite E. exact index_neg_zero.
Qed.

Lemma cell_char s chars r g b : ramp_ok chars = true -> byte r -> byte g -> byte b ->
  exists u, char (cell_of_rgb s chars (fZ r) (fZ g) (fZ b)) = Some u /\ In u chars.
Proof.
  intros Hok Hr Hg Hb.
  destruct (char_index_lookup chars _ Hok (brightness_bound s r g b Hr Hg Hb))
    as (n & _ & _ & Hi & u & Hu).
  exists u. split; [|eapply nth_error_In; exact Hu].
  unfold cell_of_rgb. cbv zeta.
  destruct (negb (grayscale s)); cbn [char]; unfold js_char_at; rewrite Hi; exact Hu.
Qed.

Lemma cell_color s chars r g b : ramp_ok chars = true -> ramp_extra_ok chars = true ->
  byte r -> byte g -> byte b ->
  match color (cell_of_rgb s chars (fZ r) (fZ g) (fZ b)) with
  | White => grayscale s = true
  | Rgb cr cg cb =>
      grayscale s = false /\
      (40 <=? cr)%float && (cr <=? 255)%float = true /\
      (40 <=? cg)%float && (cg <=? 255)%float = true /\
      (40 <=? cb)%float && (cb <=? 255)%float = true
  end.
Proof.
  intros Hok Hex Hr Hg Hb. unfold cell_of_rgb. cbv zeta.
  destruct (grayscale s) eqn:Hs; cbn [negb color]; [reflexivity|].
  pose proof (factor_range chars _ Hok Hex (brightness_bound s r g b Hr Hg Hb)) as Hf.
  unfold adjustColorBrightness.
  split; [reflexivity|].
  split; [|split]; apply adjust_channel_range; assumption.
Qed.

Lemma no_newline chars u : ramp_extra_ok chars = true -> In u chars -> u <> newline.
Proof.
  unfold ramp_extra_ok. intros H Hu. apply andb_prop in H as [_ H].
  rewrite forallb_forall in H. specialize (H u Hu).
  apply negb_true_iff, Z.eqb_neq in H. exact H.
Qed.

(** Every cell of a successful conversion is the cell of a pixel. *)
Lemma done_cells ctx img s text grid :
  (forall data, pixels img = Some data ->
     wf_pixels (js_or (naturalWidth img) (width img)) (js_or (naturalHeight img) (height img)) data) ->
  convertToAscii ctx (Some img) s = Done text grid ->
  exists cs, charSets (charSet s) = Some cs /\
    text = List.concat (map row_text grid) /\
    forall row cell, In row grid -> In cell row ->
      exists r g b, byte r /\ byte g /\ byte b /\
        cell = cell_of_rgb s (cs_chars cs) (fZ r) (fZ g) (fZ b).
Proof.
  intros Hwf Hd.
  destruct (convert_done _ _ _ _ _ Hd) as (data & cs & xs & ys & Hp & Hc & Hx & Hy & Hg & Ht).
  exists cs. split; [exact Hc|]. split; [exact Ht|].
  intros row cell Hrow Hcell. subst grid.
  apply in_map_iff in Hrow as (y & <- & Hyin).
  apply in_map_iff in Hcell as (x & <- & Hxin).
  destruct (cell_at_rgb s (cs_chars cs) data _ _ x y (Hwf data Hp) (Hx x Hxin) (Hy y Hyin))
    as (r & g & b & Hr & Hg & Hb & E).
  exists r, g, b. repeat (split; [assumption|]). exact E.
Qed.

Lemma split_nl_app l t : (forall u, In u l -> u <> newline) ->
  split_nl (l ++ newline :: t)%list = l :: split_nl t.
Proof.
  induction l as [|c l IH]; intros Hl; cbn [app split_nl].
  - reflexivity.
  - rewrite IH by (intros u Hu; apply Hl; right; exact Hu).
    destruct (Z.eqb_spec c newline) as [E|E]; [|reflexivity].
    exfalso. apply (Hl c); [left; reflexivity|exact E].
Qed.

Lemma row_units_spec row : (forall cell, In cell row -> exists u, char cell = Some u /\ u <> newline) ->
  (forall u, In u (row_units row) -> u <> newline) /\
  (forall c cell, nth_error row c = Some cell -> nth_error (row_units row) c = char cell).
Proof.
  induction row as [|cell row IH]; intros H.
  - split; [intros u []|intros [|c] cell' E; discriminate].
  - destruct (H cell (or_introl eq_refl)) as (u & Hu & Hn).
    destruct IH as [IH1 IH2]; [intros cell' Hc; apply H; right; exact Hc|].
    unfold row_units in *. cbn [map List.concat]. rewrite Hu. cbn [char_text app].
    split.
    + intros v [<-|Hv]; [exact Hn|apply IH1; exact Hv].
    + intros [|c] cell' E; cbn [nth_error] in E |- *.
      * injection E as <-. symmetry. exact Hu.
      * apply IH2. exact E.
Qed.

Lemma split_rows grid :
  (forall row cell, In row grid -> In cell row -> exists u, char cell = Some u /\ u <> newline) ->
  split_nl (List.concat (map row_text grid)) = (map row_units grid ++ [[]])%list.
Proof.
  induction grid as [|row grid IH]; intros H; [reflexivity|].
  cbn [map List.concat app]. unfold row_text at 1.
  rewrite <- app_assoc. cbn [app].
  destruct (row_units_spec row (fun cell => H row cell (or_introl eq_refl))) as [H1 _].
  fold (row_units row). rewrite split_nl_app by exact H1.
  rewrite IH; [reflexivity|]. intros r c Hr Hc. apply (H r c); [right|]; assumption.
Qed.

Lemma fZ_fle n : 0 <= n <= 2 ^ 53 -> fle (fZ n) (sv (2 ^ 52) 1).
Proof.
  intros Hn. unfold fle, fZ. replace (n <? 0) with false by (symmetry; apply Z.ltb_ge; lia).
  rewrite of_uint63_spec, Uint63.of_Z_spec.
  assert (HwB : Uint63.wB = 2 ^ 63) by reflexivity.
  rewrite Z.mod_small by lia.
  apply normalize_le; [lia|lia|unfold canon; lia| |intros _; reflexivity].
  rewrite <- sv_mul_l, (sv_shift _ 0 1) by (unfold scale; lia).
  apply sv_le_mono. lia.
Qed.

Lemma res_finite res : (0 <? res)%float = true -> (res <=? 1)%float = true ->
  exists m e, Prim2SF res = S754_finite false m e.
Proof.
  rewrite FloatAxioms.ltb_spec, FloatAxioms.leb_spec.
  change (Prim2SF 0%float) with (S754_zero false).
  rewrite prim_one. unfold SFltb, SFleb, SFcompare.
  destruct (Prim2SF res) as [[]|[]| |[] m e]; cbv beta iota; intros H1 H2;
    try discriminate; eauto.
Qed.

Lemma mul_shape x y : shape false x -> (exists m e, y = S754_finite false m e) ->
  shape false (SF64mul x y).
Proof.
  intros Hx (m & e & ->).
  destruct x as [s|s| |s mx ex]; cbn [shape] in Hx; try contradiction; subst s;
    cbn [SF64mul SFmul xorb shape]; try reflexivity.
  apply round_aux_shape. lia.
Qed.

Lemma ceil_div_good a v : 1 <= a -> shape false (Prim2SF v) -> nonneg (Prim2SF v) ->
  good_step (ceil_div_step a v).
Proof.
  intros Ha Hs Hn. unfold ceil_div_step.
  destruct (Prim2SF v) as [s|s| |s m e]; cbn [shape nonneg] in Hs, Hn;
    try contradiction; subst s; [left; reflexivity|].
  right. cbn [sf_mant]. destruct (Z.leb_spec 0 e) as [He|He].
  - eexists. split; [reflexivity|].
    assert (0 < Zpos m * 2 ^ e) by (pose proof (pow2_pos e He); lia).
    assert ((- a) / (Zpos m * 2 ^ e) < 0) by (apply Z.div_lt_upper_bound; lia). lia.
  - eexists. split; [reflexivity|].
    assert (0 < 2 ^ (- e)) by (apply pow2_pos; lia).
    assert ((- a * 2 ^ (- e)) / Zpos m < 0) by (apply Z.div_lt_upper_bound; nia). lia.
Qed.

Lemma floor_good a x : 1 <= a -> shape false (Prim2SF x) -> nonneg (Prim2SF x) ->
  good_step (ceil_div_step a (js_floor x)).
Proof.
  intros Ha Hs Hn. unfold js_floor.
  destruct (Prim2SF x) as [s|s| |s m e] eqn:E; cbn [shape nonneg] in Hs, Hn;
    try contradiction; subst s.
  - apply ceil_div_good; [exact Ha|rewrite E; reflexivity|rewrite E; exact I].
  - pose proof (prim_canon _ _ _ _ E) as Hc. unfold canon in Hc.
    destruct (Z.leb_spec 0 e) as [He|He]; [apply ceil_div_good; [exact Ha|rewrite E; reflexivity|rewrite E; exact I]|].
    cbn [sf_mant].
    assert (0 < 2 ^ (- e)) by (apply pow2_pos; lia).
    assert (0 <= Zpos m / 2 ^ (- e) <= 2 ^ 53).
    { split; [apply Z.div_pos; lia|]. apply Z.div_le_upper_bound; nia. }
    apply ceil_div_good; [exact Ha|apply fZ_shape; lia|].
    apply (fZ_fle (Zpos m / 2 ^ (- e))). exact H0.
Qed.

Lemma scaled_good a n res : 1 <= a -> 0 <= n <= 2 ^ 53 ->
  (0 <? res)%float = true -> (res <=? 1)%float = true ->
  good_step (ceil_div_step a (js_floor (fZ n * res)%float)).
Proof.
  intros Ha Hn H0 H1. destruct (res_finite res H0 H1) as (m & e & Er).
  assert (Hres : fle res (fv 1)).
  { apply fle_of_leb; [|exact H1|reflexivity].
    rewrite FloatAxioms.leb_spec. change (Prim2SF 0%float) with (S754_zero false).
    rewrite Er. reflexivity. }
  assert (Hp : fle (fZ n * res)%float (fv 9007199254740992%float)).
  { apply fle_mul with (sv (2 ^ 52) 1) (fv 1); [apply fZ_fle; lia|exact Hres|reflexivity]. }
  apply floor_good; [exact Ha| |exact (proj1 Hp)].
  rewrite FloatAxioms.mul_spec. apply mul_shape; [apply fZ_shape; lia|eauto].
Qed.

Lemma walk_good lim st : good_step st -> 1 <= lim ->
  exists xs, walk lim st = Some (0 :: xs).
Proof.
  intros [->|(k & -> & Hk)] Hl; cbn [walk].
  - replace (0 <? lim) with true by (symmetry; apply Z.ltb_lt; lia). eauto.
  - replace (0 <? k) with true by (symmetry; apply Z.ltb_lt; lia).
    destruct (Z.to_nat lim) as [|f] eqn:E; [lia|]. cbn [walk_fuel].
    replace (0 <? lim) with true by (symmetry; apply Z.ltb_lt; lia). eauto.
Qed.

Lemma walk_good_one st : good_step st -> walk 1 st = Some [0].
Proof.
  intros [->|(k & -> & Hk)]; cbn [walk]; [reflexivity|].
  replace (0 <? k) with true by (symmetry; apply Z.ltb_lt; lia).
  cbn. replace (0 + k <? 1) with false by (symmetry; apply Z.ltb_ge; lia). reflexivity.
Qed.

Example ramp_lengths :
  map (fun cs => List.length (cs_chars cs)) [standard; detailed; blocks; minimal; artistic; retro]
  = [10; 15; 5; 4; 70; 11]%nat.
Proof. reflexivity. Qed.

Lemma wf_img_2x2 : forall data, pixels img_2x2 = Some data ->
  wf_pixels (js_or (naturalWidth img_2x2) (width img_2x2))
            (js_or (naturalHeight img_2x2) (height img_2x2)) data.
Proof.
  intros data H. injection H as <-. split; [reflexivity|].
  repeat constructor; unfold byte; lia.
Qed.

Lemma read_alpha d1 d2 q j :
  (forall n, (n mod 4 <> 3)%nat -> nth_error d1 n = nth_error d2 n) ->
  0 <= j <= 2 -> read d1 (q * 4 + j) = read d2 (q * 4 + j).
Proof.
  intros H Hj. unfold read. rewrite H; [reflexivity|].
  destruct (Z.leb_spec 0 (q * 4 + j)) as [Hp|Hp].
  - intros E. apply (f_equal Z.of_nat) in E.
    rewrite Nat2Z.inj_mod, Z2Nat.id in E by lia.
    replace (q * 4 + j) with (j + q * 4) in E by lia.
    rewrite Z_mod_plus_full, Z.mod_small in E by lia. lia.
  - replace (Z.to_nat (q * 4 + j)) with 0%nat by lia. discriminate.
Qed.

Lemma cell_at_alpha s chars d1 d2 W x y :
  (forall n, (n mod 4 <> 3)%nat -> nth_error d1 n = nth_error d2 n) ->
  cell_at s chars d1 W x y = cell_at s chars d2 W x y.
Proof.
  intros H. unfold cell_at, pixel_pos. cbv zeta.
  rewrite <- (Z.add_0_r ((y * W + x) * 4)).
  rewrite !(read_alpha d1 d2 (y * W + x)) by (assumption || lia).
  rewrite <- Z.add_assoc. rewrite (read_alpha d1 d2 _ (0 + 1)) by (assumption || lia).
  rewrite <- Z.add_assoc. rewrite (read_alpha d1 d2 _ (0 + 2)) by (assumption || lia).
  reflexivity.
Qed.

(** * The claims *)

(** C1 (amended).  The 2x2 image white, black / white, black in grayscale at
    resolution 1 with the standard ramp gives ONE row, ["@ \n"]: the
    vertical stride is [ceil(2 / 2 / 0.5) = 2], so the row [y = 1] is never
    sampled; the columns are white then black, giving ['@'] then [' ']. *)
Theorem C1_two_by_two :
  convertToAscii true (Some img_2x2) settings_c1
  = Done [64; 32; 10]
      [[{| char := Some 64; color := White |}; {| char := Some 32; color := White |}]].
Proof. vm_compute. reflexivity. Qed.

(** C1: the conversion has one row, and its text is not ["@ \n@ \n"]
    (units 64 32 10 64 32 10). *)
Lemma C1_counterexample :
  match convertToAscii true (Some img_2x2) settings_c1 with
  | Done text grid =>
      List.length grid = 1%nat /\
      (if list_eq_dec Z.eq_dec text [64; 32; 10; 64; 32; 10] then false else true) = true
  | _ => False
  end.
Proof. vm_compute. split; reflexivity. Qed.

(** C2 (amended).  [floor(imgWidth * resolution)] is not coerced to at
    least 1 and can be [0]; the strides are then [+Infinity].  For image
    sizes in [1, 2^53] and a resolution in (0, 1], each stride is [+Infinity]
    or an integer [>= 1], so both sampling loops end; with a context, pixel
    data and a built-in ramp the conversion succeeds with at least one row,
    and every row has at least one cell. *)
Theorem C2_strides ctx img s W H :
  js_or (naturalWidth img) (width img) = W -> js_or (naturalHeight img) (height img) = H ->
  1 <= W <= 2 ^ 53 -> 1 <= H <= 2 ^ 53 ->
  (0 <? resolution s)%float = true -> (resolution s <=? 1)%float = true ->
  good_step (ceil_div_step W (js_floor (fZ W * resolution s)%float)) /\
  good_step (ceil_div_step (2 * H) (js_floor (fZ H * resolution s)%float)) /\
  (ctx = true -> pixels img <> None -> charSets (charSet s) <> None ->
   exists text grid, convertToAscii ctx (Some img) s = Done text grid /\
     grid <> [] /\ Forall (fun row => row <> []) grid).
Proof.
  intros HW HH HWr HHr H0 H1.
  assert (Gw : good_step (ceil_div_step W (js_floor (fZ W * resolution s)%float)))
    by (apply scaled_good; auto; lia).
  assert (Gh : good_step (ceil_div_step (2 * H) (js_floor (fZ H * resolution s)%float)))
    by (apply scaled_good; auto; lia).
  split; [exact Gw|split; [exact Gh|]].
  intros Hc Hp Hcs. subst ctx.
  destruct (walk_good W _ Gw ltac:(lia)) as (xs & Ex).
  destruct (walk_good H _ Gh ltac:(lia)) as (ys & Ey).
  destruct (pixels img) as [data|] eqn:Ep; [|congruence].
  destruct (charSets (charSet s)) as [cs|] eqn:Ec; [|congruence].
  unfold convertToAscii. cbv zeta. rewrite HW, HH.
  replace ((W =? 0) || (H =? 0)) with false
    by (symmetry; apply orb_false_iff; split; apply Z.eqb_neq; lia).
  cbn [negb]. rewrite Ep, Ec, Ey, Ex.
  eexists _, _. split; [reflexivity|]. split; [discriminate|].
  apply Forall_forall. intros row Hrow. apply in_map_iff in Hrow as (y & <- & _).
  discriminate.
Qed.

(** A concrete instance. *)
Lemma C2_witness :
  good_step (ceil_div_step 1 (js_floor (fZ 1 * resolution settings_half)%float)).
Proof.
  apply (proj1 (C2_strides true img_1x1 settings_half 1 1 eq_refl eq_refl
                  ltac:(lia) ltac:(lia) ltac:(vm_compute; reflexivity) ltac:(vm_compute; reflexivity))).
Defined.

(** C2: a 1-pixel-wide image at resolution 0.5 divides by [floor(0.5) = +0];
    the width stride is [+Infinity]. *)
Lemma C2_counterexample :
  js_floor (fZ (js_or (naturalWidth img_1x1) (width img_1x1)) * resolution settings_half)%float
    = 0%float /\
  ceil_div_step (js_or (naturalWidth img_1x1) (width img_1x1))
    (js_floor (fZ (js_or (naturalWidth img_1x1) (width img_1x1)) * resolution settings_half)%float)
    = StepPosInf.
Proof. split; vm_compute; reflexivity. Qed.

(** C3.  For every built-in ramp, every RGB byte triple and every settings
    value (grayscale or colour, inverted or not), the brightness is in
    [0, 1]; the character index is an integer [n] in [0, length - 1] (the
    double [n], or [-0] for [n = 0]), it denotes the array index [n], and
    [chars[charIndex]] is a character of the ramp.  Brightness 0 gives the
    index 0 and brightness 1 the index [length - 1]. *)
Theorem C3_ramp_index key cs s r g b :
  charSets key = Some cs -> byte r -> byte g -> byte b ->
  (0 <=? brightness_of s (fZ r) (fZ g) (fZ b))%float
    && (brightness_of s (fZ r) (fZ g) (fZ b) <=? 1)%float = true /\
  (exists n, 0 <= n <= Z.of_nat (List.length (cs_chars cs)) - 1 /\
     (char_index (cs_chars cs) (brightness_of s (fZ r) (fZ g) (fZ b)) = fZ n \/
      (n = 0 /\ char_index (cs_chars cs) (brightness_of s (fZ r) (fZ g) (fZ b)) = (-0)%float)) /\
     js_index_of (char_index (cs_chars cs) (brightness_of s (fZ r) (fZ g) (fZ b)))
       = Some (Z.to_nat n) /\
     exists u, js_char_at (cs_chars cs) (char_index (cs_chars cs) (brightness_of s (fZ r) (fZ g) (fZ b)))
       = Some u) /\
  char_index (cs_chars cs) 0 = fZ 0 /\
  char_index (cs_chars cs) 1 = fZ (Z.of_nat (List.length (cs_chars cs)) - 1).
Proof.
  intros Hc Hr Hg Hb.
  pose proof (brightness_bound s r g b Hr Hg Hb) as Hbr.
  split; [apply leb_of_fle; exact Hbr|].
  split.
  - destruct (char_index_lookup _ _ (ramps_ok _ _ Hc) Hbr) as (n & Hn & Hci & Hi & u & Hu).
    exists n. split; [exact Hn|]. split; [exact Hci|]. split; [exact Hi|].
    exists u. unfold js_char_at. rewrite Hi. exact Hu.
  - apply charSets_cases in Hc.
    destruct Hc as [->|[->|[->|[->|[->| ->]]]]]; split; reflexivity.
Qed.

(** A concrete instance. *)
Lemma C3_witness :
  (0 <=? brightness_of settings_c1 (fZ 255) (fZ 255) (fZ 255))%float
    && (brightness_of settings_c1 (fZ 255) (fZ 255) (fZ 255) <=? 1)%float = true.
Proof.
  apply (proj1 (C3_ramp_index "standard" standard settings_c1 255 255 255
                  eq_refl ltac:(unfold byte; lia) ltac:(unfold byte; lia) ltac:(unfold byte; lia))).
Defined.

(** C4.  For a successful conversion of an image whose pixel buffer is a
    well-formed RGBA buffer of its size, the text is the concatenation of
    the rows, each row's characters followed by a newline; split at the
    newlines it gives each row's characters and a final empty piece; and the
    character of the cell [grid[r][c]] is defined and equals the unit [c] of
    line [r] of the split text. *)
Theorem C4_text_grid ctx img s text grid :
  (forall data, pixels img = Some data ->
     wf_pixels (js_or (naturalWidth img) (width img)) (js_or (naturalHeight img) (height img)) data) ->
  convertToAscii ctx (Some img) s = Done text grid ->
  text = List.concat (map row_text grid) /\
  split_nl text = (map row_units grid ++ [[]])%list /\
  (forall r c row cell, nth_error grid r = Some row -> nth_error row c = Some cell ->
     exists u line, char cell = Some u /\ nth_error (split_nl text) r = Some line /\
                    nth_error line c = Some u).
Proof.
  intros Hwf Hd.
  destruct (done_cells _ _ _ _ _ Hwf Hd) as (cs & Hc & Ht & Hcells).
  assert (Hch : forall row cell, In row grid -> In cell row ->
                  exists u, char cell = Some u /\ u <> newline).
  { intros row cell Hrow Hcell.
    destruct (Hcells row cell Hrow Hcell) as (r & g & b & Hr & Hg & Hb & ->).
    destruct (cell_char s (cs_chars cs) r g b (ramps_ok _ _ Hc) Hr Hg Hb) as (u & Hu & Hin).
    exists u. split; [exact Hu|]. exact (no_newline _ _ (ramps_extra_ok _ _ Hc) Hin). }
  assert (Hs : split_nl text = (map row_units grid ++ [[]])%list)
    by (rewrite Ht; apply split_rows; exact Hch).
  split; [exact Ht|]. split; [exact Hs|].
  intros r c row cell Er Ec.
  pose proof (nth_error_In _ _ Er) as Hrow. pose proof (nth_error_In _ _ Ec) as Hcell.
  destruct (Hch row cell Hrow Hcell) as (u & Hu & _).
  exists u, (row_units row). split; [exact Hu|]. split.
  - rewrite Hs, nth_error_app1.
    + rewrite nth_error_map, Er. reflexivity.
    + rewrite length_map. apply nth_error_Some. congruence.
  - rewrite <- Hu. apply (proj2 (row_units_spec row (fun cell' Hc' => Hch row cell' Hrow Hc'))).
    exact Ec.
Qed.

(** A concrete instance. *)
Lemma C4_witness :
  split_nl [64; 32; 10]
  = (map row_units [[{| char := Some 64; color := White |}; {| char := Some 32; color := White |}]]
     ++ [[]])%list.
Proof.
  apply (proj1 (proj2 (C4_text_grid true img_2x2 settings_c1 _ _ wf_img_2x2
                         ltac:(vm_compute; reflexivity)))).
Defined.

(** C5.  An image whose width or height is 0 makes [convertToAscii] fail
    with [InvalidDimensions] whatever the settings; the component then holds
    the empty text, the empty grid and the error message.  Every failure
    leaves the empty text and grid. *)
Theorem C5_invalid_dimensions ctx img s st :
  js_or (naturalWidth img) (width img) = 0 \/ js_or (naturalHeight img) (height img) = 0 ->
  convertToAscii ctx (Some img) s = Failed InvalidDimensions /\
  apply_conversion st (convertToAscii ctx (Some img) s)
    = {| asciiArt := []; coloredAsciiArt := []; error := Some "Invalid image dimensions" |} /\
  (forall e, asciiArt (apply_conversion st (Failed e)) = [] /\
             coloredAsciiArt (apply_conversion st (Failed e)) = []).
Proof.
  intros Hd.
  assert (E : convertToAscii ctx (Some img) s = Failed InvalidDimensions).
  { unfold convertToAscii. cbv zeta.
    replace ((js_or (naturalWidth img) (width img) =? 0) || (js_or (naturalHeight img) (height img) =? 0))
      with true by (symmetry; apply orb_true_iff; destruct Hd as [->| ->]; [left|right]; reflexivity).
    reflexivity. }
  split; [exact E|]. split; [rewrite E; reflexivity|].
  intros e. split; reflexivity.
Qed.

(** A concrete instance. *)
Lemma C5_witness : convertToAscii true (Some img_0x2) settings_c1 = Failed InvalidDimensions.
Proof. apply (proj1 (C5_invalid_dimensions true img_0x2 settings_c1 ui0 (or_introl eq_refl))). Defined.

(** C6.  In colour mode, for a successful conversion of a well-formed RGBA
    buffer: the brightness factor of every pixel is in [0.5, 2], and every
    cell's colour is [rgb(r, g, b)] with each channel in [40, 255]. *)
Theorem C6_color_floor ctx img s text grid :
  grayscale s = false ->
  (forall data, pixels img = Some data ->
     wf_pixels (js_or (naturalWidth img) (width img)) (js_or (naturalHeight img) (height img)) data) ->
  convertToAscii ctx (Some img) s = Done text grid ->
  (exists cs, charSets (charSet s) = Some cs /\
     forall r g b, byte r -> byte g -> byte b ->
       (0.5 <=? brightness_factor (cs_chars cs) (char_index (cs_chars cs) (brightness_of s (fZ r) (fZ g) (fZ b))))%float
       && (brightness_factor (cs_chars cs) (char_index (cs_chars cs) (brightness_of s (fZ r) (fZ g) (fZ b))) <=? 2)%float
       = true) /\
  (forall row cell, In row grid -> In cell row ->
     exists cr cg cb, color cell = Rgb cr cg cb /\
       (40 <=? cr)%float && (cr <=? 255)%float = true /\
       (40 <=? cg)%float && (cg <=? 255)%float = true /\
       (40 <=? cb)%float && (cb <=? 255)%float = true).
Proof.
  intros Hgs Hwf Hd.
  destruct (done_cells _ _ _ _ _ Hwf Hd) as (cs & Hc & _ & Hcells).
  split.
  - exists cs. split; [exact Hc|]. intros r g b Hr Hg Hb.
    pose proof (factor_range _ _ (ramps_ok _ _ Hc) (ramps_extra_ok _ _ Hc)
                  (brightness_bound s r g b Hr Hg Hb)) as Hf.
    unfold factor_ok in Hf. apply andb_prop in Hf as [Hf H2].
    apply andb_prop in Hf as [_ H1]. rewrite H1, H2. reflexivity.
  - intros row cell Hrow Hcell.
    destruct (Hcells row cell Hrow Hcell) as (r & g & b & Hr & Hg & Hb & ->).
    pose proof (cell_color s (cs_chars cs) r g b (ramps_ok _ _ Hc) (ramps_extra_ok _ _ Hc) Hr Hg Hb) as H.
    destruct (color (cell_of_rgb s (cs_chars cs) (fZ r) (fZ g) (fZ b))) as [|cr cg cb].
    + congruence.
    + destruct H as (_ & H1 & H2 & H3). exists cr, cg, cb. auto.
Qed.

(** A concrete instance. *)
Lemma C6_witness :
  exists cs, charSets (charSet settings_color) = Some cs /\
     forall r g b, byte r -> byte g -> byte b ->
       (0.5 <=? brightness_factor (cs_chars cs) (char_index (cs_chars cs) (brightness_of settings_color (fZ r) (fZ g) (fZ b))))%float
       && (brightness_factor (cs_chars cs) (char_index (cs_chars cs) (brightness_of settings_color (fZ r) (fZ g) (fZ b))) <=? 2)%float
       = true.
Proof.
  apply (proj1 (C6_color_floor true img_2x2 settings_color _ _ eq_refl wf_img_2x2
                  ltac:(vm_compute; reflexivity))).
Defined.

(** C7.  A 1x1 image with a resolution in (0, 1], pixel data and a
    built-in ramp converts to one row of one cell, and the text is that
    cell's character followed by a newline. *)
Theorem C7_single_pixel img s data cs :
  js_or (naturalWidth img) (width img) = 1 -> js_or (naturalHeight img) (height img) = 1 ->
  (0 <? resolution s)%float = true -> (resolution s <=? 1)%float = true ->
  pixels img = Some data -> wf_pixels 1 1 data -> charSets (charSet s) = Some cs ->
  exists cell u, convertToAscii true (Some img) s = Done [u; newline] [[cell]] /\ char cell = Some u.
Proof.
  intros HW HH H0 H1 Hp Hwf Hc.
  assert (Gw : good_step (ceil_div_step 1 (js_floor (fZ 1 * resolution s)%float)))
    by (apply scaled_good; auto; lia).
  assert (Gh : good_step (ceil_div_step (2 * 1) (js_floor (fZ 1 * resolution s)%float)))
    by (apply scaled_good; auto; lia).
  destruct (cell_at_rgb s (cs_chars cs) data 1 1 0 0 Hwf ltac:(lia) ltac:(lia))
    as (r & g & b & Hr & Hg & Hb & Ecell).
  destruct (cell_char s (cs_chars cs) r g b (ramps_ok _ _ Hc) Hr Hg Hb) as (u & Hu & _).
  exists (cell_at s (cs_chars cs) data 1 0 0), u.
  split; [|rewrite Ecell; exact Hu].
  unfold convertToAscii. cbv zeta. rewrite HW, HH. cbn [Z.eqb orb negb].
  rewrite Hp, Hc, (walk_good_one _ Gh), (walk_good_one _ Gw).
  cbn [map List.concat app]. unfold row_text. cbn [map List.concat].
  rewrite Ecell, Hu. reflexivity.
Qed.

(** A concrete instance. *)
Lemma C7_witness :
  exists cell u, convertToAscii true (Some img_1x1) settings_half = Done [u; newline] [[cell]] /\
    char cell = Some u.
Proof.
  apply (C7_single_pixel img_1x1 settings_half white_px standard eq_refl eq_refl
           ltac:(vm_compute; reflexivity) ltac:(vm_compute; reflexivity) eq_refl
           ltac:(split; [reflexivity|repeat constructor; unfold byte; lia]) eq_refl).
Defined.

(** C8.  [convertToAscii] is a function of its inputs: two runs on equal
    inputs (context, image with its pixel data, settings) give equal
    outcomes, hence equal text and grid. *)
Theorem C8_deterministic ctx1 ctx2 img1 img2 s1 s2 :
  ctx1 = ctx2 -> img1 = img2 -> s1 = s2 ->
  convertToAscii ctx1 img1 s1 = convertToAscii ctx2 img2 s2.
Proof. intros -> -> ->. reflexivity. Qed.

(** A concrete instance. *)
Lemma C8_witness :
  convertToAscii true (Some img_2x2) settings_c1 = convertToAscii true (Some img_2x2) settings_c1.
Proof. apply (C8_deterministic true true (Some img_2x2) (Some img_2x2) settings_c1 settings_c1); reflexivity. Defined.

(** C9.  The output does not read the alpha channel: two images of the same
    sizes whose pixel buffers agree on every byte that is not an alpha byte
    (index [mod 4 <> 3]) give the same outcome, for every settings value. *)
Theorem C9_alpha ctx img1 img2 s d1 d2 :
  naturalWidth img1 = naturalWidth img2 -> naturalHeight img1 = naturalHeight img2 ->
  width img1 = width img2 -> height img1 = height img2 ->
  pixels img1 = Some d1 -> pixels img2 = Some d2 ->
  (forall n, (n mod 4 <> 3)%nat -> nth_error d1 n = nth_error d2 n) ->
  convertToAscii ctx (Some img1) s = convertToAscii ctx (Some img2) s.
Proof.
  intros E1 E2 E3 E4 P1 P2 H.
  unfold convertToAscii. cbv zeta. rewrite E1, E2, E3, E4, P1, P2.
  destruct (_ || _); [reflexivity|]. destruct ctx; [|reflexivity]. cbn [negb].
  destruct (charSets (charSet s)) as [cs|]; [|reflexivity].
  destruct (walk _ (ceil_div_step (2 * _) _)) as [[|y0 ys]|]; try reflexivity.
  destruct (walk _ (ceil_div_step _ _)) as [xs|]; [|reflexivity].
  match goal with |- context [map (fun y => map (fun x => cell_at ?s' ?c d1 ?W x y) ?xs') ?ys'] =>
    replace (map (fun y => map (fun x => cell_at s' c d1 W x y) xs') ys')
      with (map (fun y => map (fun x => cell_at s' c d2 W x y) xs') ys')
      by (apply map_ext; intros; apply map_ext; intros; symmetry; apply cell_at_alpha; exact H)
  end.
  reflexivity.
Qed.

(** A concrete instance. *)
Lemma C9_witness :
  convertToAscii true (Some img_2x2) settings_c1 = convertToAscii true (Some img_2x2_alpha) settings_c1.
Proof.
  apply (C9_alpha true img_2x2 img_2x2_alpha settings_c1 _ _ eq_refl eq_refl eq_refl eq_refl
           eq_refl eq_refl).
  intros n Hn. do 16 (destruct n as [|n]; [reflexivity || (exfalso; apply Hn; reflexivity)|]).
  reflexivity.
Defined.

(** C10.  Every position [(x, y)] the two stride loops visit has
    [0 <= x < imgWidth] and [0 <= y < imgHeight], and its offset
    [pos = (y * imgWidth + x) * 4] has [0 <= pos] and [pos + 2 < 4 * imgWidth
    * imgHeight], so [data[pos]], [data[pos + 1]], [data[pos + 2]] are
    bytes of a buffer of that length. *)
Theorem C10_reads_in_bounds W H sw sh xs ys x y (data : list Z) :
  walk W sw = Some xs -> walk H sh = Some ys -> In x xs -> In y ys ->
  Z.of_nat (List.length data) = 4 * W * H ->
  0 <= pixel_pos W x y /\ pixel_pos W x y + 2 < 4 * W * H /\
  forall j, 0 <= j <= 2 -> exists v, nth_error data (Z.to_nat (pixel_pos W x y + j)) = Some v.
Proof.
  intros Hw Hh Hx Hy Hl.
  pose proof (walk_range _ _ _ Hw x Hx) as Rx. pose proof (walk_range _ _ _ Hh y Hy) as Ry.
  destruct (pixel_pos_bound W H x y Rx Ry) as [P0 P1].
  split; [exact P0|]. split; [exact P1|].
  intros j Hj. destruct (nth_error_in_range data (pixel_pos W x y + j) ltac:(lia)) as (v & E & _).
  eauto.
Qed.

(** A concrete instance. *)
Lemma C10_witness :
  0 <= pixel_pos 2 1 1 /\ pixel_pos 2 1 1 + 2 < 4 * 2 * 2.
Proof.
  destruct (C10_reads_in_bounds 2 2 (StepInt 1) (StepInt 1) [0; 1] [0; 1] 1 1
              (white_px ++ black_px ++ white_px ++ black_px)%list
              eq_refl eq_refl ltac:(simpl; tauto) ltac:(simpl; tauto) eq_refl) as [A [B _]].
  split; [exact A|exact B].
Defined.

(** * Further properties of the component *)

Lemma ramps_channels_ok key cs : charSets key = Some cs -> ramp_channels_ok (cs_chars cs) = true.
Proof.
  intros H. apply charSets_cases in H.
  destruct H as [->|[->|[->|[->|[->| ->]]]]]; vm_compute; reflexivity.
Qed.

Lemma int_channel_spec c : int_channel c = true -> exists k, c = fZ k /\ 40 <= k <= 255.
Proof.
  unfold int_channel. destruct (js_index_of c) as [k|]; [|discriminate].
  intros H. repeat rewrite andb_true_iff in H. destruct H as [[H1 H2] H3].
  apply Leibniz.eqb_spec in H3. apply Z.leb_le in H1, H2.
  exists (Z.of_nat k). auto.
Qed.

Lemma factor_channels chars br : ramp_ok chars = true -> ramp_channels_ok chars = true ->
  fle br (2 ^ scale) -> channels_ok (brightness_factor chars (char_index chars br)) = true.
Proof.
  intros Hok Hch Hb. pose proof (ramp_K_range _ Hok) as HK.
  unfold ramp_channels_ok in Hch. apply andb_prop in Hch as [H1 H2].
  destruct (char_index_cases _ _ Hok Hb) as (n & Hn & [-> | [-> _]]).
  - apply (Zrange_all _ _ H1). lia.
  - exact H2.
Qed.

Lemma done_colors ctx img s text grid :
  grayscale s = false ->
  (forall data, pixels img = Some data ->
     wf_pixels (js_or (naturalWidth img) (width img)) (js_or (naturalHeight img) (height img)) data) ->
  convertToAscii ctx (Some img) s = Done text grid ->
  forall row cell, In row grid -> In cell row ->
    exists kr kg kb, color cell = Rgb (fZ kr) (fZ kg) (fZ kb) /\
      40 <= kr <= 255 /\ 40 <= kg <= 255 /\ 40 <= kb <= 255.
Proof.
  intros Hgs Hwf Hd row cell Hrow Hcell.
  destruct (done_cells _ _ _ _ _ Hwf Hd) as (cs & Hc & _ & Hcells).
  destruct (Hcells row cell Hrow Hcell) as (r & g & b & Hr & Hg & Hb & ->).
  pose proof (factor_channels (cs_chars cs) _ (ramps_ok _ _ Hc) (ramps_channels_ok _ _ Hc)
                (brightness_bound s r g b Hr Hg Hb)) as Hf.
  unfold channels_ok in Hf.
  assert (Hv : forall v, byte v -> exists k, adjust_channel (fZ v)
             (brightness_factor (cs_chars cs) (char_index (cs_chars cs) (brightness_of s (fZ r) (fZ g) (fZ b))))
             = fZ k /\ 40 <= k <= 255).
  { intros v Hv'. apply int_channel_spec. apply (Zrange_all _ _ Hf). unfold byte in Hv'. lia. }
  destruct (Hv r Hr) as (kr & Er & Kr). destruct (Hv g Hg) as (kg & Eg & Kg).
  destruct (Hv b Hb) as (kb & Eb & Kb).
  exists kr, kg, kb. unfold cell_of_rgb. cbv zeta. rewrite Hgs. cbn [negb color].
  unfold adjustColorBrightness. rewrite Er, Eg, Eb. auto.
Qed.

(** In colour mode, every cell of a finished conversion with a built-in ramp
    is coloured [rgb(r, g, b)] with integer channels between 40 and 255. *)
Theorem colour_channels_integer ctx img s text grid :
  grayscale s = false ->
  (forall data, pixels img = Some data ->
     wf_pixels (js_or (naturalWidth img) (width img)) (js_or (naturalHeight img) (height img)) data) ->
  convertToAscii ctx (Some img) s = Done text grid ->
  forall row cell, In row grid -> In cell row ->
    exists kr kg kb, color cell = Rgb (fZ kr) (fZ kg) (fZ kb) /\
      40 <= kr <= 255 /\ 40 <= kg <= 255 /\ 40 <= kb <= 255.
Proof. exact (done_colors ctx img s text grid). Qed.

Lemma walk_fuel_nth f v k lim : 0 < k -> Z.of_nat f >= lim - v ->
  forall i x, nth_error (walk_fuel f v k lim) i = Some x <-> x = v + Z.of_nat i * k /\ x < lim.
Proof.
  revert v. induction f as [|f IH]; intros v Hk Hf i x; cbn [walk_fuel].
  - destruct i; cbn [nth_error]; split; try discriminate; intros [-> ?]; nia.
  - destruct (Z.ltb_spec v lim) as [Hl|Hl].
    + destruct i as [|i]; cbn [nth_error].
      * split; [intros E; injection E as <-; lia|intros [-> _]; f_equal; lia].
      * rewrite (IH (v + k)) by lia. split; intros [-> H]; split; lia.
    + destruct i; cbn [nth_error]; split; try discriminate; intros [-> ?]; nia.
Qed.

(** The sampling loop [for (v = 0; v < lim; v += k)] with an integer step
    [k >= 1] visits exactly the multiples [i * k] below [lim], in order. *)
Theorem walk_int_step lim k : 1 <= k -> 0 <= lim ->
  exists xs, walk lim (StepInt k) = Some xs /\
    forall i x, nth_error xs i = Some x <-> x = Z.of_nat i * k /\ x < lim.
Proof.
  intros Hk Hl. cbn [walk]. replace (0 <? k) with true by (symmetry; apply Z.ltb_lt; lia).
  eexists. split; [reflexivity|]. intros i x.
  rewrite walk_fuel_nth by lia. lia.
Qed.

Lemma walk_int_nth lim k xs i x : walk lim (StepInt k) = Some xs ->
  nth_error xs i = Some x -> x = Z.of_nat i * k.
Proof.
  cbn [walk]. intros Hw Hx. destruct (Z.ltb_spec 0 k) as [Hk|Hk].
  - injection Hw as <-. destruct (Z.leb_spec 0 lim) as [Hl|Hl].
    + apply walk_fuel_nth in Hx; lia.
    + replace (Z.to_nat lim) with O in Hx by lia. destruct i; discriminate.
  - destruct (0 <? lim); [discriminate|]. injection Hw as <-. destruct i; discriminate.
Qed.

(** With integer strides [kw] and [kh], cell [c] of row [r] is the character
    of the pixel at [(c * kw, r * kh)]. *)
Theorem grid_layout ctx img s text grid cs data kw kh r c row cell :
  convertToAscii ctx (Some img) s = Done text grid ->
  pixels img = Some data -> charSets (charSet s) = Some cs ->
  ceil_div_step (js_or (naturalWidth img) (width img))
    (js_floor (fZ (js_or (naturalWidth img) (width img)) * resolution s)%float) = StepInt kw ->
  ceil_div_step (2 * js_or (naturalHeight img) (height img))
    (js_floor (fZ (js_or (naturalHeight img) (height img)) * resolution s)%float) = StepInt kh ->
  nth_error grid r = Some row -> nth_error row c = Some cell ->
  cell = cell_at s (cs_chars cs) data (js_or (naturalWidth img) (width img))
           (Z.of_nat c * kw) (Z.of_nat r * kh).
Proof.
  intros Hd Hp Hc Hkw Hkh Er Ec. revert Hd.
  unfold convertToAscii. cbv zeta.
  destruct (_ || _); [discriminate|]. destruct ctx; [|discriminate]. cbn [negb].
  rewrite Hp, Hc, Hkw, Hkh.
  destruct (walk _ (StepInt kh)) as [ys|] eqn:Ey; [|discriminate].
  destruct ys as [|y0 ys'].
  { intros H. injection H as _ <-. destruct r; discriminate. }
  destruct (walk _ (StepInt kw)) as [xs|] eqn:Ex; [|discriminate].
  intros H. injection H as _ <-.
  match type of Er with nth_error (?a :: map ?f ys') r = _ =>
    change (a :: map f ys') with (map f (y0 :: ys')) in Er end.
  rewrite nth_error_map in Er.
  destruct (nth_error (y0 :: ys') r) as [y|] eqn:Ey'; cbn [option_map] in Er; [|discriminate].
  injection Er as <-. rewrite nth_error_map in Ec.
  destruct (nth_error xs c) as [x|] eqn:Ex'; cbn [option_map] in Ec; [|discriminate].
  injection Ec as <-.
  rewrite (walk_int_nth _ _ _ _ _ Ex Ex'), (walk_int_nth _ _ _ _ _ Ey Ey'). reflexivity.
Qed.

Lemma split_nl_cons s : exists l ls, split_nl s = l :: ls.
Proof.
  induction s as [|c s IH]; cbn [split_nl]; [eauto|].
  destruct (c =? newline); [eauto|]. destruct IH as (l & ls & ->). eauto.
Qed.

Lemma join_split s : join_nl (split_nl s) = s.
Proof.
  induction s as [|c s IH]; [reflexivity|]. cbn [split_nl].
  destruct (Z.eqb_spec c newline) as [E|E].
  - destruct (split_nl_cons s) as (l & ls & Hs). rewrite Hs in *.
    change (join_nl ([] :: l :: ls)) with (newline :: join_nl (l :: ls)).
    rewrite E, IH. reflexivity.
  - destruct (split_nl_cons s) as (l & ls & Hs). rewrite Hs in *.
    rewrite <- IH. destruct ls; reflexivity.
Qed.

Lemma fills_app a b : fills (a ++ b)%list = (fills a ++ fills b)%list.
Proof. unfold fills. apply flat_map_app. Qed.

Lemma fills_gray_lines fs i ls :
  fills (mapi_from (fun lineIndex line => FillText line 0 (fZ lineIndex * fs)%float) i ls)
  = mapi_from (fun lineIndex line => (line, 0%float, (fZ lineIndex * fs)%float)) i ls.
Proof.
  revert i; induction ls as [|l ls IH]; intros i; [reflexivity|].
  cbn [mapi_from]. change (fills (?a :: ?r)) with ((fills [a]) ++ fills r)%list.
  rewrite IH. reflexivity.
Qed.

(** The grayscale drawing writes the lines of [asciiArt] as they are. *)
Lemma render_gray_lines canvas_ok ctx_ok st fs z :
  renderToCanvas canvas_ok ctx_ok st true fs z = [] \/
  fills (renderToCanvas canvas_ok ctx_ok st true fs z)
  = mapi (fun i line => (line, 0%float, (fZ i * fs)%float)) (split_nl (asciiArt st)).
Proof.
  unfold renderToCanvas. destruct (coloredAsciiArt st); [now left|].
  destruct (_ || _); [now left|]. destruct ctx_ok; [|now left]. right. cbv zeta. cbn [negb].
  rewrite !fills_app. unfold mapi. rewrite fills_gray_lines.
  change (fills [Restore]) with (@nil (jsstr * float * float)). rewrite app_nil_r. reflexivity.
Qed.

Lemma done_chars ctx img s text grid :
  (forall data, pixels img = Some data ->
     wf_pixels (js_or (naturalWidth img) (width img)) (js_or (naturalHeight img) (height img)) data) ->
  convertToAscii ctx (Some img) s = Done text grid ->
  exists cs, charSets (charSet s) = Some cs /\ text = List.concat (map row_text grid) /\
  forall row cell, In row grid -> In cell row ->
    exists u, char cell = Some u /\ In u (cs_chars cs) /\ u <> newline.
Proof.
  intros Hwf Hd.
  destruct (done_cells _ _ _ _ _ Hwf Hd) as (cs & Hc & Ht & Hcells).
  exists cs. split; [exact Hc|]. split; [exact Ht|].
  intros row cell Hrow Hcell.
  destruct (Hcells row cell Hrow Hcell) as (r & g & b & Hr & Hg & Hb & ->).
  destruct (cell_char s (cs_chars cs) r g b (ramps_ok _ _ Hc) Hr Hg Hb) as (u & Hu & Hin).
  exists u. split; [exact Hu|]. split; [exact Hin|].
  exact (no_newline _ _ (ramps_extra_ok _ _ Hc) Hin).
Qed.

(** In grayscale mode, when anything is drawn, the texts of the [fillText]
    calls joined with newlines give back [asciiArt]. *)
Theorem render_gray_roundtrip canvas_ok ctx_ok st fs z :
  renderToCanvas canvas_ok ctx_ok st true fs z <> [] ->
  join_nl (map (fun '(t, _, _) => t) (fills (renderToCanvas canvas_ok ctx_ok st true fs z)))
  = asciiArt st.
Proof.
  intros H. destruct (render_gray_lines canvas_ok ctx_ok st fs z) as [E|E]; [contradiction|].
  rewrite E. unfold mapi. rewrite <- (join_split (asciiArt st)) at 2.
  f_equal. clear E H. generalize 0. induction (split_nl (asciiArt st)) as [|l ls IH]; intros i;
    [reflexivity|]. cbn [mapi_from map]. rewrite IH. reflexivity.
Qed.

(** After a conversion, grayscale rendering draws row [i] of the grid at
    height [i * fontSize], then one empty line (the text ends in a newline). *)
Theorem render_gray_after_convert ctx img s text grid st canvas_ok fs z :
  (forall data, pixels img = Some data ->
     wf_pixels (js_or (naturalWidth img) (width img)) (js_or (naturalHeight img) (height img)) data) ->
  convertToAscii ctx (Some img) s = Done text grid -> grid <> [] ->
  fills (renderToCanvas canvas_ok true (apply_conversion st (Done text grid)) true fs z)
  = if canvas_ok
    then mapi (fun i line => (line, 0%float, (fZ i * fs)%float)) (map row_units grid ++ [[]])%list
    else [].
Proof.
  intros Hwf Hd Hg.
  destruct (done_chars _ _ _ _ _ Hwf Hd) as (cs & _ & Ht & Hch).
  assert (Hs : split_nl text = (map row_units grid ++ [[]])%list).
  { rewrite Ht. apply split_rows. intros row cell Hr Hc.
    destruct (Hch row cell Hr Hc) as (u & Hu & _ & Hn). eauto. }
  destruct canvas_ok.
  - destruct (render_gray_lines true true (apply_conversion st (Done text grid)) fs z) as [E|E].
    + exfalso. revert E. unfold renderToCanvas. cbn [apply_conversion asciiArt coloredAsciiArt].
      destruct grid as [|row grid']; [contradiction|].
      destruct text as [|t0 text']; cbn [negb orb].
      * intros _. cbn [map List.concat] in Ht. unfold row_text in Ht. rewrite <- app_assoc in Ht.
        symmetry in Ht. apply app_eq_nil in Ht as [_ Ht]. discriminate.
      * discriminate.
    + rewrite E. cbn [apply_conversion asciiArt]. rewrite Hs. reflexivity.
  - unfold renderToCanvas. cbn [apply_conversion coloredAsciiArt].
    destruct grid; [contradiction|]. reflexivity.
Qed.

Lemma in_mapi_from {A B} (f : Z -> A -> B) i l x :
  In x (mapi_from f i l) -> exists j a, In a l /\ x = f j a.
Proof.
  revert i; induction l as [|a l IH]; intros i; cbn [mapi_from In]; [tauto|].
  intros [<-|H]; [exists i, a; auto|].
  destruct (IH _ H) as (j & a' & Ha & ->). exists j, a'. auto.
Qed.

(** After a colour-mode conversion, every [fillText] of the rendering draws
    one character of the ramp and every [fillStyle] is an [rgb] colour with
    integer channels in [40, 255]. *)
Theorem render_color_after_convert ctx img s text grid st canvas_ok fs z :
  grayscale s = false ->
  (forall data, pixels img = Some data ->
     wf_pixels (js_or (naturalWidth img) (width img)) (js_or (naturalHeight img) (height img)) data) ->
  convertToAscii ctx (Some img) s = Done text grid ->
  exists cs, charSets (charSet s) = Some cs /\
  forall op, In op (renderToCanvas canvas_ok true (apply_conversion st (Done text grid)) false fs z) ->
    match op with
    | FillText t _ _ => exists u, t = [u] /\ In u (cs_chars cs)
    | SetFillStyle c => exists kr kg kb, c = Rgb (fZ kr) (fZ kg) (fZ kb) /\
        40 <= kr <= 255 /\ 40 <= kg <= 255 /\ 40 <= kb <= 255
    | _ => True
    end.
Proof.
  intros Hgs Hwf Hd.
  destruct (done_chars _ _ _ _ _ Hwf Hd) as (cs & Hc & _ & Hch).
  exists cs. split; [exact Hc|]. intros op Hop.
  unfold renderToCanvas in Hop. cbn [apply_conversion asciiArt coloredAsciiArt] in Hop.
  destruct grid as [|row0 grid']; [destruct Hop|].
  destruct (negb canvas_ok || _); [destruct Hop|]. cbn [negb] in Hop. cbv zeta in Hop.
  apply in_app_or in Hop as [Hop|Hop].
  { cbn [In] in Hop. intuition (subst; exact I). }
  apply in_app_or in Hop as [Hop|Hop].
  { cbn [In] in Hop. intuition (subst; exact I). }
  apply in_app_or in Hop as [Hop|Hop];
    [|cbn [In] in Hop; intuition (subst; exact I)].
  apply in_concat in Hop as (ops & Hops & Hop).
  apply in_mapi_from in Hops as (ri & row & Hrow & ->).
  apply in_concat in Hop as (ops & Hops & Hop).
  apply in_mapi_from in Hops as (ci & cell & Hcell & ->).
  cbn [In] in Hop. destruct Hop as [<-|[<-|[]]].
  - exact (done_colors _ _ _ _ _ Hgs Hwf Hd row cell Hrow Hcell).
  - destruct (Hch row cell Hrow Hcell) as (u & Hu & Hin & _).
    exists u. rewrite Hu. auto.
Qed.

Lemma step_loaded_inv st ev : loaded_inv st -> loaded_inv (step st ev).
Proof.
  unfold loaded_inv. intros H. destruct ev as [|img|d|ty|r| |u|c]; cbn [step].
  - unfold load_start. cbn. discriminate.
  - unfold image_onload.
    destruct (Z.eqb_spec (naturalWidth img) 0), (Z.eqb_spec (naturalHeight img) 0);
      cbn; auto; intros _; exists img; auto.
  - exact H.
  - unfold handleFileUpload. destruct (negb _); exact H.
  - unfold reader_onload. destruct r as [[|]|]; cbn; try exact H. discriminate.
  - exact H.
  - exact H.
  - unfold convert_effect. destruct (_ && _); exact H.
Qed.

Lemma run_loaded_inv st evs : loaded_inv st -> loaded_inv (run st evs).
Proof.
  revert st; induction evs as [|ev evs IH]; intros st H; [exact H|].
  apply IH, step_loaded_inv, H.
Qed.

(** Whatever the events, [imageLoaded] holds only when [imageRef] holds an
    image with non-zero natural width and height. *)
Theorem loaded_image_has_size evs :
  imageLoaded (run initial_component evs) = true ->
  exists img, imageRef (run initial_component evs) = Some img /\
    naturalWidth img <> 0 /\ naturalHeight img <> 0.
Proof. apply run_loaded_inv. unfold loaded_inv. discriminate. Qed.

Lemma select_items_known key : existsb (String.eqb key) (map fst select_items) = true ->
  charSets key <> None.
Proof.
  intros H. apply existsb_exists in H as (k & Hk & E). apply String.eqb_eq in E as ->.
  cbn in Hk. repeat destruct Hk as [<-|Hk]; try discriminate. destruct Hk.
Qed.

Lemma step_charset_inv st ev : ui_update ev = true -> charset_inv st -> charset_inv (step st ev).
Proof.
  unfold charset_inv. intros Hu H. destruct ev as [|img|d|ty|r| |u|c]; cbn [step].
  - exact H.
  - unfold image_onload. destruct (_ || _); exact H.
  - exact H.
  - unfold handleFileUpload. destruct (negb _); exact H.
  - unfold reader_onload. destruct r as [[|]|]; exact H.
  - exact H.
  - destruct u; cbn; try exact H. apply select_items_known, Hu.
  - unfold convert_effect. destruct (_ && _); exact H.
Qed.

Lemma run_charset_inv st evs : forallb ui_update evs = true -> charset_inv st ->
  charset_inv (run st evs).
Proof.
  revert st; induction evs as [|ev evs IH]; intros st Hf H; [exact H|].
  cbn [forallb] in Hf. apply andb_prop in Hf as [Hu Hf].
  apply IH; [assumption|]. apply step_charset_inv; assumption.
Qed.

(** When the conversion effect runs after events whose character-set changes
    come from the [Select], it fails only for lack of a 2D context or of
    pixel access: never for the image, its dimensions or the character set. *)
Theorem convert_effect_errors evs ctx_ok :
  forallb ui_update evs = true ->
  imageLoaded (run initial_component evs) = true ->
  match convertToAscii ctx_ok (imageRef (run initial_component evs))
          (settings (run initial_component evs)) with
  | Failed e => e = ContextUnavailable \/ e = PixelAccessDenied
  | _ => True
  end.
Proof.
  intros Hf Hl.
  destruct (run_loaded_inv initial_component evs ltac:(unfold loaded_inv; discriminate) Hl)
    as (img & Hi & Hw & Hh).
  pose proof (run_charset_inv initial_component evs Hf ltac:(unfold charset_inv; discriminate)) as Hc.
  unfold charset_inv in Hc. rewrite Hi.
  set (s := settings (run initial_component evs)) in *.
  unfold convertToAscii. cbv zeta.
  unfold js_or. apply Z.eqb_neq in Hw, Hh. rewrite Hw, Hh. cbv beta iota. rewrite Hw, Hh. cbn [orb].
  destruct ctx_ok; cbn [negb]; [|auto].
  destruct (pixels img); [|auto].
  destruct (charSets (charSet s)); [|contradiction].
  destruct (walk _ _) as [[|]|]; [exact I| |exact I].
  destruct (walk _ _); exact I.
Qed.



(** An image with a zero natural size sets the error and leaves
    [imageLoaded] false; the previous image and ASCII art stay. *)
Theorem invalid_image_keeps_previous st img :
  naturalWidth img = 0 \/ naturalHeight img = 0 ->
  let st' := image_onload img (load_start st) in
  imageLoaded st' = false /\ loading st' = false /\
  error (ui st') = Some "Invalid image dimensions" /\
  imageRef st' = imageRef st /\ asciiArt (ui st') = asciiArt (ui st) /\
  coloredAsciiArt (ui st') = coloredAsciiArt (ui st).
Proof.
  intros H. unfold image_onload.
  replace ((naturalWidth img =? 0) || (naturalHeight img =? 0)) with true
    by (destruct H as [-> | ->]; [reflexivity|symmetry; apply orb_true_r]).
  cbn. repeat split.
Qed.

(** After a failed conversion, copy and download report that there is no ASCII
    art; after a successful one with a row, both use the converted text. *)
Theorem copy_after_convert ctx_ok st img :
  imageLoaded st = true -> imageRef st = Some img ->
  match convertToAscii ctx_ok (Some img) (settings st) with
  | Failed _ =>
      copyToClipboard (convert_effect ctx_ok st)
        = (setError (Some "No ASCII art to copy") (convert_effect ctx_ok st), None) /\
      downloadAsciiArt (convert_effect ctx_ok st)
        = (setError (Some "No ASCII art to download") (convert_effect ctx_ok st), None)
  | Done text grid =>
      grid <> [] ->
      snd (copyToClipboard (convert_effect ctx_ok st)) = Some text /\
      snd (downloadAsciiArt (convert_effect ctx_ok st)) = Some text
  | Hangs => True
  end.
Proof.
  intros Hl Hi. unfold convert_effect. rewrite Hl, Hi. cbn [andb].
  destruct (convertToAscii ctx_ok (Some img) (settings st)) as [text grid|e|] eqn:Hd;
    [|split; reflexivity|exact I].
  intros Hg. destruct (convert_done _ _ _ _ _ Hd) as (data & cs & xs & ys & Hp & Hc & Hx & Hy & Hgr & Ht).
  clear Hgr. destruct grid as [|row grid']; [contradiction|].
  unfold copyToClipboard, downloadAsciiArt. cbn [ui apply_conversion asciiArt].
  destruct text as [|t0 text']; [|split; reflexivity].
  exfalso. cbn [map List.concat] in Ht. unfold row_text in Ht. rewrite <- app_assoc in Ht.
  symmetry in Ht. apply app_eq_nil in Ht as [_ Ht]. discriminate.
Qed.

(** The grid is rectangular: every row has the length of the first row, the
    one [renderToCanvas] sizes the colour canvas by. *)
Theorem grid_rectangular ctx img s text grid :
  convertToAscii ctx (Some img) s = Done text grid ->
  forall row, In row grid -> List.length row = List.length (hd [] grid).
Proof.
  intros Hd. destruct (convert_done _ _ _ _ _ Hd) as (data & cs & xs & ys & _ & _ & _ & _ & Hg & _).
  rewrite Hg. intros row Hrow. apply in_map_iff in Hrow as (y & <- & Hy).
  destruct ys as [|y0 ys]; [destruct Hy|]. cbn [map hd]. rewrite !length_map. reflexivity.
Qed.

(** After a non-empty image loads and is converted, the rendering effect runs
    exactly when the conversion succeeded. *)
Theorem render_after_load ctx_ok st img :
  naturalWidth img <> 0 -> naturalHeight img <> 0 ->
  let st' := convert_effect ctx_ok (image_onload img (load_start st)) in
  match convertToAscii ctx_ok (Some img) (settings st) with
  | Done _ _ => render_effect_runs st' = true
  | Failed _ => render_effect_runs st' = false
  | Hangs => True
  end.
Proof.
  intros Hw Hh. cbv zeta. unfold image_onload.
  apply Z.eqb_neq in Hw, Hh. rewrite Hw, Hh. cbn [orb].
  unfold convert_effect. cbn [imageLoaded imageRef setLoading setImageLoaded setImageRef load_start
    setError andb settings ui].
  destruct (convertToAscii ctx_ok (Some img) (settings st)); reflexivity.
Qed.

(** When [Math.floor(imgWidth * resolution)] is [+0], the horizontal stride
    is [Infinity] and every row has exactly one cell. *)
Theorem narrow_image_single_column ctx img s text grid :
  0 < js_or (naturalWidth img) (width img) ->
  js_floor (fZ (js_or (naturalWidth img) (width img)) * resolution s)%float = 0%float ->
  convertToAscii ctx (Some img) s = Done text grid ->
  forall row, In row grid -> List.length row = 1%nat.
Proof.
  intros Hpos Hz. unfold convertToAscii. cbv zeta.
  destruct (_ || _); [discriminate|]. destruct ctx; [|discriminate]. cbn [negb].
  destruct (pixels img) as [data|]; [|discriminate].
  destruct (charSets (charSet s)) as [cs|]; [|discriminate].
  destruct (walk _ _) as [[|y0 ys]|]; [|intros H|discriminate].
  { intros H. injection H as _ <-. intros row []. }
  rewrite Hz in H. unfold ceil_div_step at 1 in H.
  replace (Prim2SF 0%float) with (S754_zero false) in H by reflexivity. cbn [walk] in H.
  apply Z.ltb_lt in Hpos. rewrite Hpos in H.
  injection H as _ <-. intros row [<-|Hrow]; [reflexivity|].
  apply in_map_iff in Hrow as (y & <- & _). reflexivity.
Qed.

(** An instance of [colour_channels_integer]. *)
Lemma colour_channels_integer_witness :
  exists kr kg kb, color {| char := Some 32; color := Rgb 40 40 40 |} = Rgb (fZ kr) (fZ kg) (fZ kb) /\
    40 <= kr <= 255 /\ 40 <= kg <= 255 /\ 40 <= kb <= 255.
Proof.
  eapply (colour_channels_integer true img_2x2 settings_color _ _ eq_refl wf_img_2x2
            ltac:(vm_compute; reflexivity)); [left; reflexivity | right; left; reflexivity].
Defined.

(** An instance of [walk_int_step]. *)
Lemma walk_int_step_witness :
  exists xs, walk 5 (StepInt 2) = Some xs /\
    forall i x, nth_error xs i = Some x <-> x = Z.of_nat i * 2 /\ x < 5.
Proof. apply (walk_int_step 5 2); lia. Defined.

(** An instance of [grid_layout]. *)
Lemma grid_layout_witness :
  {| char := Some 32; color := Rgb 40 40 40 |}
  = cell_at settings_color (cs_chars standard) (white_px ++ black_px ++ white_px ++ black_px)%list 2
      (Z.of_nat 1 * 1) (Z.of_nat 0 * 2).
Proof.
  eapply (grid_layout true img_2x2 settings_color _ _ standard _ 1 2 0 1);
    [vm_compute; reflexivity | reflexivity | reflexivity | vm_compute; reflexivity
    | vm_compute; reflexivity | reflexivity | reflexivity].
Defined.

(** An instance of [grid_rectangular]. *)
Lemma grid_rectangular_witness :
  List.length [{| char := Some 37; color := Rgb 255 255 255 |}; {| char := Some 32; color := Rgb 40 40 40 |}]
  = List.length (hd [] [[{| char := Some 37; color := Rgb 255 255 255 |}; {| char := Some 32; color := Rgb 40 40 40 |}]]).
Proof.
  apply (grid_rectangular true img_2x2 settings_color [37; 32; 10]
           [[{| char := Some 37; color := Rgb 255 255 255 |}; {| char := Some 32; color := Rgb 40 40 40 |}]]
           ltac:(vm_compute; reflexivity)).
  left; reflexivity.
Defined.

(** An instance of [render_gray_roundtrip]. *)
Lemma render_gray_roundtrip_witness :
  join_nl (map (fun '(t, _, _) => t) (fills (renderToCanvas true true ui_art true 8 1)))
  = asciiArt ui_art.
Proof. apply (render_gray_roundtrip true true ui_art 8 1). vm_compute. discriminate. Defined.

(** An instance of [render_gray_after_convert]. *)
Lemma render_gray_after_convert_witness :
  fills (renderToCanvas true true
           (apply_conversion ui0 (Done [64; 32; 10]
              [[{| char := Some 64; color := White |}; {| char := Some 32; color := White |}]])) true 8 1)
  = mapi (fun i line => (line, 0%float, (fZ i * 8)%float))
      (map row_units [[{| char := Some 64; color := White |}; {| char := Some 32; color := White |}]]
       ++ [[]])%list.
Proof.
  apply (render_gray_after_convert true img_2x2 settings_c1 _ _ ui0 true 8 1 wf_img_2x2);
    [vm_compute; reflexivity | discriminate].
Defined.

(** An instance of [render_color_after_convert]. *)
Lemma render_color_after_convert_witness :
  exists cs, charSets "standard" = Some cs /\
  forall op, In op (renderToCanvas true true
    (apply_conversion ui0 (Done [37; 32; 10]
       [[{| char := Some 37; color := Rgb 255 255 255 |}; {| char := Some 32; color := Rgb 40 40 40 |}]]))
    false 8 1) ->
    match op with
    | FillText t _ _ => exists u, t = [u] /\ In u (cs_chars cs)
    | SetFillStyle c => exists kr kg kb, c = Rgb (fZ kr) (fZ kg) (fZ kb) /\
        40 <= kr <= 255 /\ 40 <= kg <= 255 /\ 40 <= kb <= 255
    | _ => True
    end.
Proof.
  apply (render_color_after_convert true img_2x2 settings_color _ _ ui0 true 8 1 eq_refl wf_img_2x2).
  vm_compute; reflexivity.
Defined.

(** An instance of [loaded_image_has_size]. *)
Lemma loaded_image_has_size_witness :
  exists img, imageRef (run initial_component [LoadStart; ImageLoad img_2x2]) = Some img /\
    naturalWidth img <> 0 /\ naturalHeight img <> 0.
Proof. apply (loaded_image_has_size [LoadStart; ImageLoad img_2x2]). reflexivity. Defined.

(** An instance of [convert_effect_errors]. *)
Lemma convert_effect_errors_witness :
  match convertToAscii false
          (imageRef (run initial_component [LoadStart; ImageLoad img_2x2; Update (SetCharSet "retro")]))
          (settings (run initial_component [LoadStart; ImageLoad img_2x2; Update (SetCharSet "retro")])) with
  | Failed e => e = ContextUnavailable \/ e = PixelAccessDenied
  | _ => True
  end.
Proof.
  apply (convert_effect_errors [LoadStart; ImageLoad img_2x2; Update (SetCharSet "retro")] false);
    reflexivity.
Defined.

(** An instance of [invalid_image_keeps_previous]. *)
Lemma invalid_image_keeps_previous_witness :
  let st' := image_onload img_0x2 (load_start img_2x2_loaded) in
  imageLoaded st' = false /\ loading st' = false /\
  error (ui st') = Some "Invalid image dimensions" /\
  imageRef st' = imageRef img_2x2_loaded /\ asciiArt (ui st') = asciiArt (ui img_2x2_loaded) /\
  coloredAsciiArt (ui st') = coloredAsciiArt (ui img_2x2_loaded).
Proof. apply (invalid_image_keeps_previous img_2x2_loaded img_0x2). left; reflexivity. Defined.

(** An instance of [copy_after_convert]. *)
Lemma copy_after_convert_witness :
  snd (copyToClipboard (convert_effect true img_2x2_loaded)) = Some [37; 32; 10] /\
  snd (downloadAsciiArt (convert_effect true img_2x2_loaded)) = Some [37; 32; 10].
Proof.
  pose proof (copy_after_convert true img_2x2_loaded img_2x2 eq_refl eq_refl) as H.
  revert H. vm_compute. intros H. apply H. discriminate.
Defined.

(** An instance of [render_after_load]. *)
Lemma render_after_load_witness :
  render_effect_runs (convert_effect true (image_onload img_2x2 (load_start img_2x2_loaded))) = true.
Proof. exact (render_after_load true img_2x2_loaded img_2x2 ltac:(discriminate) ltac:(discriminate)). Defined.

(** An instance of [narrow_image_single_column]. *)
Lemma narrow_image_single_column_witness :
  List.length [{| char := Some 64; color := White |}] = 1%nat.
Proof.
  eapply (narrow_image_single_column true img_2x2 settings_tiny _ _ ltac:(reflexivity)
            ltac:(vm_compute; reflexivity) ltac:(vm_compute; reflexivity)).
  left; reflexivity.
Defined.
